(** * Daily-Reflection: the annotation segmentation engine

    A shallow embedding of [buildSegments] (src/src/App.tsx) and the
    properties of it that the specification states.

    Conventions of the embedding.
    - A JavaScript string is the list of its UTF-16 code units.
    - [Issue.start] and [Issue.end] are integers (the evaluator's JSON
      schema declares them as integers), modelled in [Z]; negative and
      out-of-range values are kept.
    - [Issue] objects are compared by reference ([x !== m.issue]).  The
      annotation list is therefore a list of references into a store of
      [Issue] objects, and two distinct references may hold equal fields.
    - [Array.prototype.sort] is stable (ECMAScript 2019) and the comparator
      of [buildSegments] is a consistent one, so the sorted array is the
      stable sort of the markers; [js_sort] is the stable insertion sort. *)

From Stdlib Require Import ZArith List Bool Lia.
From Stdlib Require Import Sorting.Sorted Sorting.Permutation.
From Stdlib Require String Ascii.
Import ListNotations.
Import String.StringSyntax.
Abbreviation string := String.string.
Delimit Scope string_scope with string.

Local Open Scope Z_scope.

(** ** Strings *)

Definition code_unit := N.
Definition jsstring := list code_unit.

(** A literal, for examples. *)
Definition js (s : string) : jsstring :=
  map Ascii.N_of_ascii (String.list_ascii_of_string s).

(** [text.length] *)
Definition str_length (s : jsstring) : Z := Z.of_nat (length s).

(** [String.prototype.slice(start, end)] on integer arguments: a negative
    argument counts from the end, both are clamped into [0, length]. *)
Definition slice (s : jsstring) (a b : Z) : jsstring :=
  let len := str_length s in
  let from := if a <? 0 then Z.max (len + a) 0 else Z.min a len in
  let to := if b <? 0 then Z.max (len + b) 0 else Z.min b len in
  let span := Z.max (to - from) 0 in
  firstn (Z.to_nat span) (skipn (Z.to_nat from) s).

(** [text.slice(start)]: the end defaults to the length. *)
Definition slice_from (s : jsstring) (a : Z) : jsstring :=
  slice s a (str_length s).

(** ** Data model *)

Inductive IssueType := spell | grammar | clarity | structure.

Record Issue := mkIssue {
  type : IssueType;
  start : Z;           (* inclusive index into original text *)
  end_ : Z;            (* exclusive *)
  tip : option string  (* short one-liner for tooltip *)
}.

(** Object identity: a reference to an [Issue], and the store it points
    into. *)
Definition ref := nat.
Definition store := ref -> Issue.

(** [{ idx: number; issue?: Issue; open?: boolean }] *)
Record marker := mkMarker {
  idx : Z;
  issue : ref;
  open : bool
}.

(** ["plain" | IssueType] *)
Inductive SegType := plain | kind (t : IssueType).

Record Segment := mkSegment {
  seg_text : jsstring;
  seg_type : SegType;
  seg_tip : option string
}.

(** ** Sorting the markers *)

(** [Number(b)] on a boolean. *)
Definition Number (b : bool) : Z := if b then 1 else 0.

(** The comparator [(a, b) => a.idx - b.idx || Number(b.open) - Number(a.open)]. *)
Definition cmp (a b : marker) : Z :=
  let d := idx a - idx b in
  if d =? 0 then Number (open b) - Number (open a) else d.

Section Sort.
Context {A : Type} (compare : A -> A -> Z).

(** [x] goes after the elements that compare strictly below it and
    before everything else. *)
Fixpoint insert (x : A) (l : list A) : list A :=
  match l with
  | [] => [x]
  | y :: l' => if 0 <? compare x y then y :: insert x l' else x :: l
  end.

Definition js_sort (l : list A) : list A := fold_right insert [] l.
End Sort.

(** ** buildSegments *)

Section BuildSegments.
Variable h : store.
Variable text : jsstring.

(** The first loop: two markers per issue, in input order. *)
Definition markers_of (issues : list ref) : list marker :=
  flat_map (fun it => [mkMarker (start (h it)) it true;
                       mkMarker (end_ (h it)) it false]) issues.

Definition sorted_markers (issues : list ref) : list marker :=
  js_sort cmp (markers_of issues).

(** [stack[stack.length - 1]], [undefined] on the empty stack. *)
Definition top (stack : list ref) : option ref :=
  match rev stack with
  | [] => None
  | r :: _ => Some r
  end.

(** [active ? active.type : "plain"] *)
Definition active_type (active : option ref) : SegType :=
  match active with
  | Some r => kind (type (h r))
  | None => plain
  end.

(** [active?.tip] *)
Definition active_tip (active : option ref) : option string :=
  match active with
  | Some r => tip (h r)
  | None => None
  end.

Record state := mkState {
  segs : list Segment;
  cursor : Z;
  stack : list ref
}.

Definition init : state := mkState [] 0 [].

(** The part of the loop body under [if (m.idx > cursor)]. *)
Definition emit (st : state) (m : marker) : state :=
  if cursor st <? idx m then
    let active := top (stack st) in
    mkState (segs st ++ [mkSegment (slice text (cursor st) (idx m))
                                   (active_type active) (active_tip active)])
            (idx m) (stack st)
  else st.

(** [if (m.open) stack.push(m.issue!); else stack = stack.filter((x) => x !== m.issue);] *)
Definition apply_marker (stack : list ref) (m : marker) : list ref :=
  if open m then stack ++ [issue m]
  else filter (fun x => negb (Nat.eqb x (issue m))) stack.

(** One iteration of [for (const m of markers)]. *)
Definition step (st : state) (m : marker) : state :=
  let st1 := emit st m in
  mkState (segs st1) (cursor st1) (apply_marker (stack st1) m).

Definition sweep (ms : list marker) : state := fold_left step ms init.

(** The code after the loop. *)
Definition finish (st : state) : list Segment :=
  if cursor st <? str_length text then
    let active := top (stack st) in
    segs st ++ [mkSegment (slice_from text (cursor st))
                          (active_type active) (active_tip active)]
  else segs st.

Definition buildSegments (issues : list ref) : list Segment :=
  finish (sweep (sorted_markers issues)).
End BuildSegments.

(** A store for examples: the issues of a list, addressed by position. *)
Definition store_of (l : list Issue) : store :=
  fun r => nth r l (mkIssue spell 0 0 None).

(** ** Derived notions used in the statements *)

Definition seg_texts (l : list Segment) : jsstring :=
  concat (map seg_text l).

(** The segments emitted so far spell the text up to the cursor. *)
Definition covers (text : jsstring) (st : state) : Prop :=
  0 <= cursor st /\ seg_texts (segs st) = slice text 0 (cursor st).

(** The order the comparator induces, through a rank. *)
Definition rank_le {A} (rank : A -> Z) (a b : A) : Prop := rank a <= rank b.

(** The comparator orders the markers by position, opens before closes. *)
Definition rank (m : marker) : Z := 2 * idx m + (if open m then 0 else 1).

(** [m] is a close marker of [r]. *)
Definition closes (r : ref) (m : marker) : bool :=
  negb (open m) && Nat.eqb (issue m) r.

Definition closed_later (r : ref) (ms : list marker) : bool :=
  existsb (closes r) ms.

(** The annotations that were added by a processed open marker and have not
    been removed by a later close marker, in the order they were added. *)
Fixpoint still_open (ms : list marker) : list ref :=
  match ms with
  | [] => []
  | m :: ms' =>
      if open m && negb (closed_later (issue m) ms')
      then issue m :: still_open ms'
      else still_open ms'
  end.

(** The largest position met so far, starting from 0. *)
Definition cursor_after (ms : list marker) : Z :=
  fold_left (fun c m => Z.max c (idx m)) ms 0.

Section Emissions.
Variable h : store.
Variable text : jsstring.

(** The last-added annotation still present once [pre] has been processed. *)
Definition governing (pre : list marker) : option ref := top (still_open pre).

Definition segment_at (pre : list marker) (txt : jsstring) : Segment :=
  mkSegment txt (active_type h (governing pre)) (active_tip h (governing pre)).

(** What the sweep emits while it goes through [post], having processed
    [pre], and at the end. *)
Fixpoint emissions (pre post : list marker) : list Segment :=
  match post with
  | [] =>
      if cursor_after pre <? str_length text
      then [segment_at pre (slice_from text (cursor_after pre))]
      else []
  | m :: post' =>
      (if cursor_after pre <? idx m
       then [segment_at pre (slice text (cursor_after pre) (idx m))]
       else []) ++ emissions (pre ++ [m]) post'
  end.
End Emissions.

(** [s] is the segment emitted when [pre] has been processed and [post]
    is still to come. *)
Definition emitted_at (h : store) (text : jsstring)
    (pre post : list marker) (s : Segment) : Prop :=
  seg_type s = active_type h (governing pre)
  /\ seg_tip s = active_tip h (governing pre)
  /\ match post with
     | [] => cursor_after pre < str_length text
             /\ seg_text s = slice_from text (cursor_after pre)
     | m :: _ => cursor_after pre < idx m
                 /\ seg_text s = slice text (cursor_after pre) (idx m)
     end.

Definition relabel (f : ref -> ref) (m : marker) : marker :=
  mkMarker (idx m) (f (issue m)) (open m).

Definition relabel_state (f : ref -> ref) (st : state) : state :=
  mkState (segs st) (cursor st) (map f (stack st)).

(** The markers that do not belong to [z]. *)
Definition others (z : ref) (X : list marker) : list marker :=
  filter (fun m => negb (Nat.eqb (issue m) z)) X.

(** [drop z s]: the stack without [z]. *)
Definition drop (z : ref) (s : list ref) : list ref :=
  filter (fun x => negb (Nat.eqb x z)) s.

(** Following the specification, section 4.1: [start] and [end] clamped
    into [0, L], an inverted range made zero-width at its start. *)
Definition clamp (L x : Z) : Z := Z.max 0 (Z.min x L).

Definition normalize (L : Z) (i : Issue) : Issue :=
  let s := clamp L (start i) in
  let e := clamp L (end_ i) in
  mkIssue (type i) s (if e <? s then s else e) (tip i).

Definition normalized (L : Z) (h : store) : store := fun r => normalize L (h r).

(** Evaluating a sweep over explicit markers whose references are variables. *)
Ltac eval_refs :=
  repeat match goal with
  | |- context [Nat.eqb ?a ?a] => rewrite (Nat.eqb_refl a)
  | H : ?a <> ?b |- context [Nat.eqb ?a ?b] =>
      rewrite (proj2 (Nat.eqb_neq a b) H)
  | H : ?a <> ?b |- context [Nat.eqb ?b ?a] =>
      rewrite (proj2 (Nat.eqb_neq b a) (not_eq_sym H))
  end.

Ltac eval_emissions :=
  cbn [emissions app]; unfold segment_at, governing, cursor_after;
  cbn [fold_left idx Z.max Z.compare Pos.compare Pos.compare_cont Z.ltb];
  cbn [still_open open issue closed_later existsb closes negb andb orb];
  eval_refs;
  cbn [negb andb orb top rev app active_type active_tip].

(** Where the segment emitted before [post] ends: at the next marker, or at
    the end of the text after the last one. *)
Definition emission_end (text : jsstring) (post : list marker) : Z :=
  match post with
  | [] => str_length text
  | m :: _ => idx m
  end.

(** ** Regular expressions

    The regular expressions of App.tsx are sequences of single-character
    atoms, greedy [+] repetitions of one, word boundaries and a
    single-character lookbehind; none has the [u] flag.  [rx_match] is the
    backtracking matcher of ECMAScript on this fragment. *)

(** [\s]: WhiteSpace and LineTerminator code units. *)
Definition is_space (c : code_unit) : bool :=
  existsb (N.eqb c)
    [9; 10; 11; 12; 13; 32; 160; 5760; 8232; 8233; 8239; 8287; 12288; 65279]%N
  || ((8192 <=? c) && (c <=? 8202))%N.

(** The word characters of [\b]: [A-Za-z0-9_]. *)
Definition is_word (c : code_unit) : bool :=
  ((65 <=? c) && (c <=? 90) || (97 <=? c) && (c <=? 122)
   || (48 <=? c) && (c <=? 57) || (c =? 95))%N.

Inductive atom :=
| Letter (lower : code_unit)    (* an ASCII letter under the [i] flag *)
| Space                         (* [\s] *)
| OneOf (cs : list code_unit).  (* a character class [[...]] *)

(** Under [i] without [u] a pattern letter [a-z] matches itself and its
    upper case only: Canonicalize never maps a code unit from 128 on to one
    below 128. *)
Definition atom_test (a : atom) (c : code_unit) : bool :=
  match a with
  | Letter l => (c =? l)%N || (c =? l - 32)%N
  | Space => is_space c
  | OneOf cs => existsb (N.eqb c) cs
  end.

Inductive node :=
| One (a : atom)
| Plus (a : atom)          (* greedy [a+] *)
| Boundary                 (* [\b] *)
| LookBehind (a : atom).   (* [(?<=a)] *)

Definition regex := list node.

Definition is_word_opt (c : option code_unit) : bool :=
  match c with
  | Some c => is_word c
  | None => false
  end.

(** [rx_match re prev rest]: the number of code units [re] matches at the
    position whose previous code unit is [prev] and whose remaining input
    is [rest]; [None] when it does not match there. *)
Fixpoint rx_match (re : regex) : option code_unit -> jsstring -> option nat :=
  match re with
  | [] => fun _ _ => Some 0%nat
  | One a :: re' =>
      fun _ rest =>
        match rest with
        | c :: rest' =>
            if atom_test a c then option_map S (rx_match re' (Some c) rest')
            else None
        | [] => None
        end
  | Plus a :: re' =>
      fix more (prev : option code_unit) (rest : jsstring) : option nat :=
        match rest with
        | c :: rest' =>
            if atom_test a c then
              match more (Some c) rest' with
              | Some n => Some (S n)
              | None => option_map S (rx_match re' (Some c) rest')
              end
            else None
        | [] => None
        end
  | Boundary :: re' =>
      fun prev rest =>
        if xorb (is_word_opt prev) (is_word_opt (hd_error rest))
        then rx_match re' prev rest else None
  | LookBehind a :: re' =>
      fun prev rest =>
        match prev with
        | Some c => if atom_test a c then rx_match re' prev rest else None
        | None => None
        end
  end.

(** The search of [RegExp.prototype.exec] from index [i] on: the first
    index at which the expression matches, and the length of the match. *)
Fixpoint rx_search (re : regex) (prev : option code_unit) (rest : jsstring)
    (i : nat) : option (nat * nat) :=
  match rx_match re prev rest with
  | Some n => Some (i, n)
  | None =>
      match rest with
      | [] => None
      | c :: rest' => rx_search re (Some c) rest' (S i)
      end
  end.

(** [text.match(re)] for an expression without [g]: [m.index] and the
    length of [m[0]]. *)
Definition str_match (re : regex) (text : jsstring) : option (nat * nat) :=
  rx_search re None text 0.

(** [re.test(text)] *)
Definition rx_test (re : regex) (text : jsstring) : bool :=
  match str_match re text with
  | Some _ => true
  | None => false
  end.

(** The loop of [String.prototype.split] with a regular expression, on a
    non-empty string: [piece] holds, reversed, the code units since the end
    [p] of the last separator, [skip] the code units of a separator still
    to pass.  At a position [q] where the expression matches up to [e], the
    piece is pushed unless [e = p]. *)
Fixpoint split_loop (re : regex) (prev : option code_unit) (rest : jsstring)
    (piece : jsstring) (skip : nat) : list jsstring :=
  match rest with
  | [] => [rev piece]
  | c :: rest' =>
      match skip with
      | S k => split_loop re (Some c) rest' [] k
      | O =>
          match rx_match re prev rest with
          | None => split_loop re (Some c) rest' (c :: piece) 0
          | Some O =>
              match piece with
              | [] => split_loop re (Some c) rest' [c] 0
              | _ :: _ => rev piece :: split_loop re (Some c) rest' [c] 0
              end
          | Some (S k) => rev piece :: split_loop re (Some c) rest' [] k
          end
      end
  end.

(** [text.split(re)] *)
Definition str_split (re : regex) (text : jsstring) : list jsstring :=
  match text with
  | [] => match rx_match re None [] with Some _ => [] | None => [[]] end
  | _ :: _ => split_loop re None text [] 0
  end.

(** [text.indexOf(c)] for a one-character string, [-1] when absent. *)
Fixpoint index_from (c : code_unit) (rest : jsstring) (i : Z) : Z :=
  match rest with
  | [] => -1
  | d :: rest' => if (d =? c)%N then i else index_from c rest' (i + 1)
  end.

Definition indexOf (text : jsstring) (c : code_unit) : Z := index_from c text 0.

(** ** mockEvaluate *)

Record Tip := mkTip {
  title : string;  (* What's the issue (plain language) *)
  why : string;    (* Why it matters (one sentence) *)
  examples : list (string * string)  (* before, after *)
}.

Record ExamplePair := mkExamplePair {
  before : jsstring;
  afterParts : list (string * bool)  (* text, bold *)
}.

Record EvalResult := mkEvalResult {
  issues : list Issue;
  topTips : list Tip;
  example : option ExamplePair
}.

(** [/\bi\s+was\b/i] *)
Definition re_i_was : regex :=
  [Boundary; One (Letter 105); Plus Space;
   One (Letter 119); One (Letter 97); One (Letter 115); Boundary]%N.

(** [/\bteh\b/i] *)
Definition re_teh : regex :=
  [Boundary; One (Letter 116); One (Letter 101); One (Letter 104); Boundary]%N.

(** [/(?<=[.!?])/] *)
Definition re_after_stop : regex := [LookBehind (OneOf [46; 33; 63]%N)].

Definition mockEvaluate (text : jsstring) : EvalResult :=
  let firstPeriod := Z.max 0 (indexOf text 46%N) in
  let issues0 : list Issue := [] in
  let issues1 :=
    if rx_test re_i_was text then
      match str_match re_i_was text with
      | Some (index, len) =>
          issues0 ++ [mkIssue grammar (Z.of_nat index)
                              (Z.of_nat index + Z.of_nat len)
                              (Some "Capitalize ‘I’."%string)]
      | None => issues0
      end
    else issues0 in
  let issues2 :=
    if rx_test re_teh text then
      match str_match re_teh text with
      | Some (index, len) =>
          issues1 ++ [mkIssue spell (Z.of_nat index)
                              (Z.of_nat index + Z.of_nat len)
                              (Some "Spelling: ‘the’."%string)]
      | None => issues1
      end
    else issues1 in
  let issues3 :=
    if (firstPeriod =? -1) && (0 <? str_length text) then
      issues2 ++ [mkIssue clarity 0 (Z.min 60 (str_length text))
                          (Some "Add clear sentence breaks."%string)]
    else issues2 in
  let topTips :=
    [mkTip "Connect what happened to how you felt"%string
           "Connecting events to feelings makes your story easier to understand."%string
           [("I finished my homework."%string,
             "I finished my homework, and I felt proud because it was hard."%string)]] in
  let example :=
    mkExamplePair
      (match str_split re_after_stop text with
       | [] => js "today i was tired but i study"%string
       | first :: _ =>
           match first with
           | [] => js "today i was tired but i study"%string
           | _ :: _ => first
           end
       end)
      [("Today "%string, false); ("I"%string, true);
       (" felt tired, but I finished science and "%string, false);
       ("I"%string, true);
       (" will review vocab after dinner."%string, false)] in
  mkEvalResult issues3 topTips (Some example).

(** The array [issues] as [buildSegments] receives it: one object per
    element, in order. *)
Definition refs_of (l : list Issue) : list ref := seq 0 (length l).

(** The code unit before the position reached after [pre]. *)
Definition prev_after (prev : option code_unit) (pre : jsstring) : option code_unit :=
  match rev pre with
  | c :: _ => Some c
  | [] => prev
  end.

(** The text up to and including its first [.], [!] or [?]. *)
Fixpoint upto_stop (s : jsstring) : jsstring :=
  match s with
  | [] => []
  | c :: s' =>
      if atom_test (OneOf [46; 33; 63]%N) c then [c] else c :: upto_stop s'
  end.

(** ** OriginalPreview *)

(** A rendered [<span>]: its class after the fixed prefix, its [title] and
    its text. *)
Record span := mkSpan {
  span_class : string;
  span_title : option string;
  span_text : jsstring
}.

Inductive preview :=
| Placeholder                (* "Your writing shows here after you submit." *)
| Spans (l : list span).

Inductive Mode := overview | focus.

(** The class chosen from [seg.type]. *)
Definition segment_class (t : SegType) : string :=
  match t with
  | plain => ""
  | kind spell => "bg-yellow-200/80 dark:bg-yellow-700/40"
  | kind grammar => "bg-blue-200/70 dark:bg-blue-800/40"
  | kind clarity => "bg-purple-200/70 dark:bg-purple-800/40"
  | kind structure => "bg-red-200/70 dark:bg-red-800/40"
  end%string.

(** [seg.tip || undefined]: an empty tip gives no title. *)
Definition segment_title (t : option string) : option string :=
  match t with
  | Some String.EmptyString => None
  | Some s => Some s
  | None => None
  end.

Definition render_segment (seg : Segment) : span :=
  mkSpan (segment_class (seg_type seg)) (segment_title (seg_tip seg))
         (seg_text seg).

Definition OriginalPreview (h : store) (text : jsstring) (issues : list ref)
    (mode : Mode) : preview :=
  match text with
  | [] => Placeholder
  | _ :: _ => Spans (map render_segment (buildSegments h text issues))
  end.

(** ** sentenceCount *)

(** The loop of [String.prototype.replace] with a global regular expression
    and a replacement without [$]: at each position from the end of the last
    match on, a match is replaced and passed ([skip] counts the code units
    of it still to pass); after an empty match the next code unit is
    copied. *)
Fixpoint replace_loop (re : regex) (rep : jsstring) (prev : option code_unit)
    (rest : jsstring) (skip : nat) : jsstring :=
  match rest with
  | [] =>
      match skip, rx_match re prev [] with
      | O, Some _ => rep
      | _, _ => []
      end
  | c :: rest' =>
      match skip with
      | S k => replace_loop re rep (Some c) rest' k
      | O =>
          match rx_match re prev rest with
          | None => c :: replace_loop re rep (Some c) rest' 0
          | Some O => (rep ++ c :: replace_loop re rep (Some c) rest' 0)%list
          | Some (S k) => (rep ++ replace_loop re rep (Some c) rest' k)%list
          end
      end
  end.

(** [text.replace(re, rep)] for a global [re]. *)
Definition str_replace_all (re : regex) (rep : jsstring) (text : jsstring) : jsstring :=
  replace_loop re rep None text 0.

Fixpoint drop_spaces (s : jsstring) : jsstring :=
  match s with
  | [] => []
  | c :: s' => if is_space c then drop_spaces s' else s
  end.

(** [text.trim()] *)
Definition trim (s : jsstring) : jsstring :=
  rev (drop_spaces (rev (drop_spaces s))).

(** [Boolean(s)] on a string. *)
Definition truthy (s : jsstring) : bool :=
  match s with
  | [] => false
  | _ :: _ => true
  end.

(** [/\s+/g] *)
Definition re_spaces : regex := [Plus Space].

(** [/[.!?]+\s+/] *)
Definition re_sentence_end : regex := [Plus (OneOf [46; 33; 63]%N); Plus Space].

Definition minSentences : nat := 3.

Definition sentenceCount (text : jsstring) : nat :=
  let s := filter truthy
             (str_split re_sentence_end
                (trim (str_replace_all re_spaces (js " "%string) text))) in
  if Nat.eqb (length s) 1
     && match s with
        | first :: _ => negb (truthy first)
        | [] => false
        end
  then 0%nat else length s.

(** [disabled={submitting || sentenceCount < minSentences}] *)
Definition submit_disabled (submitting : bool) (text : jsstring) : bool :=
  submitting || Nat.ltb (sentenceCount text) minSentences.

(** The number of [.], [!] and [?] of a string. *)
Definition count_stops (s : jsstring) : nat :=
  length (filter (atom_test (OneOf [46; 33; 63]%N)) s).

Example scenario_teh :
  buildSegments (store_of [mkIssue spell 0 3 (Some "Spelling: 'the'."%string)])
                (js "Teh cat was nice."%string) [0%nat]
  = [mkSegment (js "Teh"%string) (kind spell) (Some "Spelling: 'the'."%string);
     mkSegment (js " cat was nice."%string) plain None].
Proof. reflexivity. Qed.

(** ** Slicing *)

Lemma seg_texts_app l1 l2 : seg_texts (l1 ++ l2) = (seg_texts l1 ++ seg_texts l2)%list.
Proof. unfold seg_texts. now rewrite map_app, concat_app. Qed.

Lemma firstn_plus {A} (n m : nat) (l : list A) :
  firstn (n + m) l = (firstn n l ++ firstn m (skipn n l))%list.
Proof.
  revert l; induction n as [|n IH]; intros [|x l]; simpl; trivial.
  - now rewrite firstn_nil.
  - now rewrite IH.
Qed.

Lemma slice_length s a b :
  0 <= a -> a <= b ->
  str_length (slice s a b) = Z.min b (str_length s) - Z.min a (str_length s).
Proof.
  intros Ha Hab. unfold slice, str_length.
  destruct (Z.ltb_spec a 0); [lia|]. destruct (Z.ltb_spec b 0); [lia|].
  rewrite length_firstn, length_skipn. lia.
Qed.

Lemma slice_split s a b c :
  0 <= a -> a <= b -> b <= c ->
  (slice s a b ++ slice s b c)%list = slice s a c.
Proof.
  intros Ha Hab Hbc. unfold slice.
  destruct (Z.ltb_spec a 0); [lia|]. destruct (Z.ltb_spec b 0); [lia|].
  destruct (Z.ltb_spec c 0); [lia|].
  set (len := str_length s).
  set (x := Z.to_nat (Z.min a len)).
  replace (Z.to_nat (Z.min b len)) with (Z.to_nat (Z.min b len - Z.min a len) + x)%nat by (unfold x; lia).
  rewrite <- skipn_skipn with (x := Z.to_nat (Z.min b len - Z.min a len)) (y := x).
  replace (Z.to_nat (Z.max (Z.min c len - Z.min a len) 0))
    with (Z.to_nat (Z.min b len - Z.min a len) + Z.to_nat (Z.min c len - Z.min b len))%nat by lia.
  rewrite firstn_plus.
  replace (Z.max (Z.min b len - Z.min a len) 0) with (Z.min b len - Z.min a len) by lia.
  replace (Z.max (Z.min c len - Z.min b len) 0) with (Z.min c len - Z.min b len) by lia.
  reflexivity.
Qed.

Lemma slice_all s c : str_length s <= c -> slice s 0 c = s.
Proof.
  intros Hc. unfold slice. fold (str_length s).
  destruct (Z.ltb_spec c 0); [unfold str_length in *; lia|].
  simpl. rewrite Z.min_r by lia.
  replace (Z.min 0 (str_length s)) with 0 by (unfold str_length; lia).
  simpl. rewrite Z.sub_0_r, Z.max_l by (unfold str_length; lia).
  unfold str_length. rewrite Nat2Z.id. apply firstn_all.
Qed.

(** ** Invariants of the sweep *)

Lemma fold_step_inv h text (P : state -> Prop) :
  (forall st m, P st -> P (step h text st m)) ->
  forall ms st, P st -> P (fold_left (step h text) ms st).
Proof.
  intros Hstep ms; induction ms as [|m ms IH]; intros st Hst; simpl; auto.
Qed.

Lemma sweep_inv h text (P : state -> Prop) :
  P init -> (forall st m, P st -> P (step h text st m)) ->
  forall ms, P (sweep h text ms).
Proof. intros H0 Hstep ms. unfold sweep. now apply fold_step_inv. Qed.

Lemma step_unfold h text st m :
  step h text st m =
  if cursor st <? idx m then
    mkState (segs st ++ [mkSegment (slice text (cursor st) (idx m))
                                   (active_type h (top (stack st)))
                                   (active_tip h (top (stack st)))])
            (idx m) (apply_marker (stack st) m)
  else mkState (segs st) (cursor st) (apply_marker (stack st) m).
Proof. unfold step, emit. now destruct (cursor st <? idx m). Qed.

Lemma covers_init text : covers text init.
Proof. split; simpl; [lia|]. unfold slice. simpl. now rewrite Z.min_l by (unfold str_length; lia). Qed.

Lemma covers_step h text st m : covers text st -> covers text (step h text st m).
Proof.
  intros [Hc Ht]. rewrite step_unfold.
  destruct (Z.ltb_spec (cursor st) (idx m)); split; simpl; trivial; try lia.
  rewrite seg_texts_app, Ht. unfold seg_texts at 1. simpl. rewrite app_nil_r.
  apply slice_split; lia.
Qed.

Lemma covers_finish h text st :
  covers text st -> seg_texts (finish h text st) = text.
Proof.
  intros [Hc Ht]. unfold finish.
  destruct (Z.ltb_spec (cursor st) (str_length text)).
  - rewrite seg_texts_app, Ht. unfold seg_texts at 1. simpl. rewrite app_nil_r.
    unfold slice_from. rewrite slice_split by lia. apply slice_all; lia.
  - rewrite Ht. now apply slice_all.
Qed.

(** ** Reconstruction *)

(** C1: for every text and every annotation list, the texts of the segments
    returned by [buildSegments], concatenated in output order, are exactly
    the input text. *)
Theorem C1_reconstruction h text issues :
  seg_texts (buildSegments h text issues) = text.
Proof.
  unfold buildSegments. apply covers_finish.
  apply sweep_inv; [apply covers_init | intros; now apply covers_step].
Qed.

(** ** The stable sort *)

Section SortFacts.
Context {A : Type} (compare : A -> A -> Z) (rank : A -> Z).
Hypothesis compare_rank : forall a b, (0 <? compare a b) = (rank b <? rank a).

Lemma insert_perm x l : Permutation (x :: l) (insert compare x l).
Proof.
  induction l as [|y l IH]; simpl; [reflexivity|].
  destruct (0 <? compare x y); [|reflexivity].
  rewrite perm_swap. now constructor.
Qed.

Lemma js_sort_perm l : Permutation l (js_sort compare l).
Proof.
  induction l as [|x l IH]; simpl; [constructor|].
  rewrite <- insert_perm. now constructor.
Qed.

Lemma insert_sorted x l :
  StronglySorted (rank_le rank) l -> StronglySorted (rank_le rank) (insert compare x l).
Proof.
  induction 1 as [|y l Hl IH Hy]; simpl.
  - repeat constructor.
  - rewrite compare_rank. destruct (Z.ltb_spec (rank y) (rank x)).
    + constructor; trivial.
      rewrite <- insert_perm. constructor; [unfold rank_le; lia | trivial].
    + constructor; [now constructor|].
      constructor; [trivial|].
      eapply Forall_impl; [|exact Hy]. unfold rank_le; intros; lia.
Qed.

Lemma js_sort_sorted l : StronglySorted (rank_le rank) (js_sort compare l).
Proof.
  induction l as [|x l IH]; simpl; [constructor | now apply insert_sorted].
Qed.

(** Stability: elements of one rank keep their relative order. *)
Lemma insert_filter_rank k x l :
  filter (fun y => rank y =? k) (insert compare x l)
  = filter (fun y => rank y =? k) (x :: l).
Proof.
  induction l as [|y l IH]; [reflexivity|].
  cbn [insert]. rewrite compare_rank.
  destruct (Z.ltb_spec (rank y) (rank x)); [|reflexivity].
  cbn [filter] in *. rewrite IH.
  destruct (Z.eqb_spec (rank x) k), (Z.eqb_spec (rank y) k); trivial; lia.
Qed.

Lemma js_sort_stable k l :
  filter (fun y => rank y =? k) (js_sort compare l)
  = filter (fun y => rank y =? k) l.
Proof.
  induction l as [|x l IH]; [reflexivity|].
  cbn [js_sort fold_right]. fold (js_sort compare l).
  rewrite insert_filter_rank. cbn [filter]. now rewrite IH.
Qed.

(** Sorting commutes with a relabelling that the comparator ignores. *)
Lemma js_sort_map (g : A -> A) l :
  (forall a b, compare (g a) (g b) = compare a b) ->
  js_sort compare (map g l) = map g (js_sort compare l).
Proof.
  intros Hg. induction l as [|x l IH]; [reflexivity|].
  cbn [map js_sort fold_right]. fold (js_sort compare (map g l)).
  fold (js_sort compare l). rewrite IH.
  generalize (js_sort compare l) as s. clear IH.
  induction s as [|y s IH]; [reflexivity|].
  cbn [map insert]. rewrite Hg.
  destruct (0 <? compare x y); cbn [map]; now rewrite ?IH.
Qed.
End SortFacts.

Lemma cmp_rank a b : (0 <? cmp a b) = (rank b <? rank a).
Proof.
  unfold cmp, rank, Number.
  destruct (Z.eqb_spec (idx a - idx b) 0), (open a), (open b);
    destruct (Z.ltb_spec 0 (idx a - idx b)); 
    repeat match goal with |- context [?x <? ?y] => destruct (Z.ltb_spec x y) end;
    trivial; lia.
Qed.

(** ** The active collection and the cursor, in terms of the processed markers *)

Lemma fold_step_cursor h text ms st :
  cursor (fold_left (step h text) ms st)
  = fold_left (fun c m => Z.max c (idx m)) ms (cursor st).
Proof.
  revert st; induction ms as [|m ms IH]; intros st; [reflexivity|].
  cbn [fold_left]. rewrite IH. f_equal. rewrite step_unfold.
  destruct (Z.ltb_spec (cursor st) (idx m)); simpl; lia.
Qed.

Lemma fold_step_stack h text ms st :
  stack (fold_left (step h text) ms st) = fold_left apply_marker ms (stack st).
Proof.
  revert st; induction ms as [|m ms IH]; intros st; [reflexivity|].
  cbn [fold_left]. rewrite IH. f_equal. rewrite step_unfold.
  now destruct (cursor st <? idx m).
Qed.

Lemma filter_filter {A} (f g : A -> bool) l :
  filter f (filter g l) = filter (fun x => g x && f x) l.
Proof.
  induction l as [|x l IH]; [reflexivity|]. cbn [filter].
  destruct (g x); cbn [filter andb]; now rewrite IH.
Qed.

Lemma fold_apply_marker ms s :
  fold_left apply_marker ms s
  = (filter (fun r => negb (closed_later r ms)) s ++ still_open ms)%list.
Proof.
  revert s; induction ms as [|m ms IH]; intros s.
  - cbn. rewrite app_nil_r. induction s; cbn; congruence.
  - cbn [fold_left]. rewrite IH. unfold apply_marker.
    cbn [still_open closed_later existsb].
    assert (Hc : forall r, closes r m = negb (open m) && Nat.eqb (issue m) r)
      by reflexivity.
    destruct (open m); cbn [negb andb orb].
    + rewrite filter_app, <- app_assoc. f_equal.
      { apply filter_ext. intros r. cbv beta. now rewrite Hc. }
      cbn [filter app]. fold (closed_later (issue m) ms).
      destruct (closed_later (issue m) ms); reflexivity.
    + rewrite filter_filter. f_equal. apply filter_ext. intros r.
      cbv beta. fold (closed_later r ms).
      rewrite Hc, (Nat.eqb_sym r (issue m)). cbn [negb andb].
      destruct (Nat.eqb (issue m) r), (closed_later r ms); reflexivity.
Qed.

Lemma sweep_cursor h text ms : cursor (sweep h text ms) = cursor_after ms.
Proof. apply fold_step_cursor. Qed.

Lemma sweep_stack h text ms : stack (sweep h text ms) = still_open ms.
Proof. unfold sweep. now rewrite fold_step_stack, fold_apply_marker. Qed.

Lemma sweep_snoc h text pre m :
  sweep h text (pre ++ [m]) = step h text (sweep h text pre) m.
Proof. unfold sweep. now rewrite fold_left_app. Qed.

Lemma finish_sweep_app h text post : forall pre,
  finish h text (sweep h text (pre ++ post))
  = (segs (sweep h text pre) ++ emissions h text pre post)%list.
Proof.
  induction post as [|m post IH]; intros pre.
  - rewrite app_nil_r. unfold finish. cbn [emissions].
    rewrite sweep_cursor, sweep_stack.
    destruct (cursor_after pre <? str_length text);
      [reflexivity | now rewrite app_nil_r].
  - replace (pre ++ m :: post)%list with ((pre ++ [m]) ++ post)%list
      by now rewrite <- app_assoc.
    rewrite IH, sweep_snoc, step_unfold, sweep_cursor, sweep_stack.
    cbn [emissions].
    destruct (cursor_after pre <? idx m); cbn [segs];
      now rewrite <- ?app_assoc.
Qed.

Lemma buildSegments_emissions h text issues :
  buildSegments h text issues
  = emissions h text [] (sorted_markers h issues).
Proof.
  unfold buildSegments.
  exact (finish_sweep_app h text (sorted_markers h issues) []).
Qed.

Lemma sorted_pair {A} (R : A -> A -> Prop) pre m1 mid m2 post :
  StronglySorted R (pre ++ m1 :: mid ++ m2 :: post) -> R m1 m2.
Proof.
  induction pre as [|x pre IH]; cbn [app]; intros Hs;
    apply StronglySorted_inv in Hs; destruct Hs as [Hs Hall]; auto.
  rewrite Forall_forall in Hall. apply Hall.
  apply in_or_app; right; now left.
Qed.

Lemma sorted_app {A} (R : A -> A -> Prop) l1 l2 :
  StronglySorted R (l1 ++ l2) ->
  forall x y, In x l1 -> In y l2 -> R x y.
Proof.
  induction l1 as [|a l1 IH]; cbn [app]; intros Hs x y Hx Hy; [contradiction|].
  apply StronglySorted_inv in Hs. destruct Hs as [Hs Ha].
  destruct Hx as [->|Hx]; [|now apply IH].
  rewrite Forall_forall in Ha. apply Ha, in_or_app. now right.
Qed.

Lemma sorted_mid_l {A} (R : A -> A -> Prop) l1 x l2 :
  StronglySorted R (l1 ++ x :: l2) -> forall y, In y l2 -> R x y.
Proof.
  intros S y Hy. apply (sorted_pair R l1 x [] y []) .
  destruct (in_split _ _ Hy) as (a & b & ->).
  revert S. clear. induction l1 as [|c l1 IH]; cbn [app]; intros S.
  - apply StronglySorted_inv in S. destruct S as [S Hx].
    constructor; [constructor; [constructor|constructor] |].
    constructor; [|constructor].
    rewrite Forall_forall in Hx. apply Hx, in_or_app. right. now left.
  - apply StronglySorted_inv in S. destruct S as [S Hc].
    constructor; [now apply IH|].
    rewrite Forall_forall in *. intros u Hu. apply Hc.
    apply in_app_or in Hu. apply in_or_app.
    destruct Hu as [Hu|[<-|[<-|[]]]]; [now left | right; now left |].
    right. right. apply in_or_app. right. now left.
Qed.

Lemma sorted_mid_r {A} (R : A -> A -> Prop) l1 x l2 :
  StronglySorted R (l1 ++ x :: l2) -> forall y, In y l1 -> R y x.
Proof. intros S y Hy. apply (sorted_app R l1 (x :: l2)); trivial. now left. Qed.

Lemma sorted_markers_sorted h issues :
  StronglySorted (rank_le rank) (sorted_markers h issues).
Proof. apply js_sort_sorted, cmp_rank. Qed.

Lemma slice_from_0 text : slice_from text 0 = text.
Proof. unfold slice_from. apply slice_all; lia. Qed.

(** ** No annotations *)

(** C9: with an empty annotation list, [buildSegments] returns the whole
    text as a single plain segment, and the empty list when the text is
    empty as well. *)
Theorem C9_no_annotations h text :
  buildSegments h text [] =
  match text with
  | [] => []
  | _ :: _ => [mkSegment text plain None]
  end.
Proof.
  unfold buildSegments, sorted_markers. cbn [markers_of flat_map js_sort fold_right].
  unfold sweep, finish. cbn [fold_left init cursor segs stack top rev active_type active_tip app].
  rewrite slice_from_0. destruct text as [|c text]; [reflexivity|].
  unfold str_length. cbn [length].
  destruct (Z.ltb_spec 0 (Z.of_nat (S (length text)))); [reflexivity | lia].
Qed.

(** ** Touching annotations *)

(** C3: in the sorted markers an open marker comes before every close
    marker of the same position; and for [A] over [0,5) followed by [B] over
    [5,10) on a text of length at least 10 the output is the segment
    [0,5) tagged with [A], the segment [5,10) tagged with [B], and
    the plain remainder if any: no plain segment in between. *)
Theorem C3_open_before_close h text :
  (forall issues mo mc,
     In mo (sorted_markers h issues) -> In mc (sorted_markers h issues) ->
     open mo = true -> open mc = false -> idx mo = idx mc ->
     exists pre mid post,
       sorted_markers h issues = (pre ++ mo :: mid ++ mc :: post)%list)
  /\
  (forall a b,
     a <> b -> 10 <= str_length text ->
     start (h a) = 0 -> end_ (h a) = 5 ->
     start (h b) = 5 -> end_ (h b) = 10 ->
     buildSegments h text [a; b] =
     ([mkSegment (slice text 0 5) (kind (type (h a))) (tip (h a));
       mkSegment (slice text 5 10) (kind (type (h b))) (tip (h b))]
      ++ (if 10 <? str_length text
          then [mkSegment (slice_from text 10) plain None] else []))%list
     /\ str_length (slice text 0 5) = 5
     /\ str_length (slice text 5 10) = 5).
Proof.
  split.
  - intros issues mo mc Hmo Hmc Ho Hc Hi.
    pose proof (sorted_markers_sorted h issues) as Hsorted.
    destruct (in_split _ _ Hmc) as (l1 & l2 & He). rewrite He in Hmo, Hsorted.
    apply in_app_or in Hmo. destruct Hmo as [Hmo|[Hmo|Hmo]].
    + destruct (in_split _ _ Hmo) as (pre & mid & ->).
      exists pre, mid, l2. rewrite He, <- app_assoc. reflexivity.
    + rewrite Hmo, Ho in Hc. discriminate.
    + apply (sorted_mid_l _ _ _ _ Hsorted) in Hmo.
      unfold rank_le, rank in Hmo. rewrite Ho, Hc in Hmo. lia.
  - intros a b Hab Hlen Ha1 Ha2 Hb1 Hb2.
    split; [|split; rewrite slice_length by lia; lia].
    rewrite buildSegments_emissions.
    assert (Hm : sorted_markers h [a; b]
                 = [mkMarker 0 a true; mkMarker 5 b true;
                    mkMarker 5 a false; mkMarker 10 b false]).
    { unfold sorted_markers, markers_of. cbn [flat_map app].
      rewrite Ha1, Ha2, Hb1, Hb2. reflexivity. }
    rewrite Hm. eval_emissions. reflexivity.
Qed.

(** ** Removal by identity *)

Lemma apply_close_remove s p r :
  apply_marker s (mkMarker p r false) = remove Nat.eq_dec r s.
Proof.
  unfold apply_marker. cbn [open issue].
  induction s as [|x s IH]; [reflexivity|]. cbn [filter remove].
  destruct (Nat.eq_dec r x) as [->|Hne].
  - now rewrite Nat.eqb_refl.
  - rewrite (proj2 (Nat.eqb_neq x r)) by congruence. cbn [negb]. now rewrite IH.
Qed.

(** C2: a close marker removes its own annotation from the active
    collection, wherever it sits, and nothing else.  For [A] over [0,10)
    and [B] over [5,15) on a text of length at least 15: the collection is
    [A, B] when [A] is closed at 10, it is [B] afterwards, and the
    segment [10,15) is tagged with [B]. *)
Theorem C2_close_by_identity h text :
  (forall s p r, apply_marker s (mkMarker p r false) = remove Nat.eq_dec r s)
  /\
  (forall a b,
     a <> b -> 15 <= str_length text ->
     start (h a) = 0 -> end_ (h a) = 10 ->
     start (h b) = 5 -> end_ (h b) = 15 ->
     sorted_markers h [a; b]
     = [mkMarker 0 a true; mkMarker 5 b true;
        mkMarker 10 a false; mkMarker 15 b false]
     /\ stack (sweep h text [mkMarker 0 a true; mkMarker 5 b true]) = [a; b]
     /\ stack (sweep h text [mkMarker 0 a true; mkMarker 5 b true;
                             mkMarker 10 a false]) = [b]
     /\ buildSegments h text [a; b] =
        ([mkSegment (slice text 0 5) (kind (type (h a))) (tip (h a));
          mkSegment (slice text 5 10) (kind (type (h b))) (tip (h b));
          mkSegment (slice text 10 15) (kind (type (h b))) (tip (h b))]
         ++ (if 15 <? str_length text
             then [mkSegment (slice_from text 15) plain None] else []))%list
     /\ str_length (slice text 10 15) = 5).
Proof.
  split; [apply apply_close_remove|].
  intros a b Hab Hlen Ha1 Ha2 Hb1 Hb2.
  assert (Hm : sorted_markers h [a; b]
               = [mkMarker 0 a true; mkMarker 5 b true;
                  mkMarker 10 a false; mkMarker 15 b false]).
  { unfold sorted_markers, markers_of. cbn [flat_map app].
    rewrite Ha1, Ha2, Hb1, Hb2. reflexivity. }
  split; [exact Hm|].
  split; [|split; [|split]].
  - rewrite sweep_stack.
    cbn [still_open open issue closed_later existsb closes negb andb orb].
    reflexivity.
  - rewrite sweep_stack.
    cbn [still_open open issue closed_later existsb closes negb andb orb].
    eval_refs. reflexivity.
  - rewrite buildSegments_emissions, Hm. eval_emissions. reflexivity.
  - rewrite slice_length by lia. lia.
Qed.

(** ** The governing annotation *)

(** C4: every emitted segment is tagged with the last-added annotation
    still present in the active collection when it is emitted
    ([governing], through [emissions]), and is plain when there is none.
    For [A] over [0,10) of kind grammar containing [B] over [3,6) of kind
    clarity the output is [0,3) grammar, [3,6) clarity, [6,10) grammar and
    the plain remainder if any. *)
Theorem C4_last_added_governs h text :
  (forall issues,
     buildSegments h text issues = emissions h text [] (sorted_markers h issues))
  /\
  (forall a b ta tb,
     a <> b -> 10 <= str_length text ->
     h a = mkIssue grammar 0 10 ta -> h b = mkIssue clarity 3 6 tb ->
     buildSegments h text [a; b] =
     ([mkSegment (slice text 0 3) (kind grammar) ta;
       mkSegment (slice text 3 6) (kind clarity) tb;
       mkSegment (slice text 6 10) (kind grammar) ta]
      ++ (if 10 <? str_length text
          then [mkSegment (slice_from text 10) plain None] else []))%list
     /\ str_length (slice text 0 3) = 3
     /\ str_length (slice text 3 6) = 3
     /\ str_length (slice text 6 10) = 4).
Proof.
  split; [apply buildSegments_emissions|].
  intros a b ta tb Hab Hlen Ha Hb.
  split; [|repeat split; rewrite slice_length by lia; lia].
  rewrite buildSegments_emissions.
  assert (Hm : sorted_markers h [a; b]
               = [mkMarker 0 a true; mkMarker 3 b true;
                  mkMarker 6 b false; mkMarker 10 a false]).
  { unfold sorted_markers, markers_of. cbn [flat_map app].
    rewrite Ha, Hb. reflexivity. }
  rewrite Hm. eval_emissions. rewrite Ha, Hb. reflexivity.
Qed.

(** ** Where the active annotations come from *)

Lemma top_in s r : top s = Some r -> In r s.
Proof.
  unfold top. intros H. apply in_rev.
  destruct (rev s) as [|x l]; [discriminate|]. injection H as ->. now left.
Qed.

Lemma still_open_in ms r :
  In r (still_open ms) ->
  exists m, In m ms /\ issue m = r /\ open m = true.
Proof.
  induction ms as [|m ms IH]; cbn [still_open]; [contradiction|].
  destruct (open m) eqn:Ho; cbn [andb].
  - destruct (negb (closed_later (issue m) ms)).
    + intros [<-|H].
      * exists m. repeat split; [now left | trivial].
      * destruct (IH H) as (m' & ? & ? & ?). exists m'. repeat split; trivial. now right.
    + intros H. destruct (IH H) as (m' & ? & ? & ?). exists m'. repeat split; trivial. now right.
  - intros H. destruct (IH H) as (m' & ? & ? & ?). exists m'. repeat split; trivial. now right.
Qed.

Lemma markers_of_in h issues m :
  In m (markers_of h issues) ->
  In (issue m) issues
  /\ idx m = (if open m then start (h (issue m)) else end_ (h (issue m))).
Proof.
  unfold markers_of. rewrite in_flat_map. intros (r & Hr & [<-|[<-|[]]]); now split.
Qed.

Lemma sorted_markers_in h issues m :
  In m (sorted_markers h issues) <-> In m (markers_of h issues).
Proof.
  unfold sorted_markers. split; apply Permutation_in;
    [symmetry|]; apply js_sort_perm.
Qed.

Lemma governing_in h issues pre post r :
  sorted_markers h issues = (pre ++ post)%list ->
  governing pre = Some r -> In r issues.
Proof.
  intros Hs Hg. apply top_in, still_open_in in Hg.
  destruct Hg as (m & Hm & <- & _).
  apply (markers_of_in h), sorted_markers_in. rewrite Hs.
  apply in_or_app. now left.
Qed.

Lemma in_emissions h text s post : forall pre,
  In s (emissions h text pre post) ->
  exists pre' post',
    (pre ++ post = pre' ++ post')%list /\ emitted_at h text pre' post' s.
Proof.
  induction post as [|m post IH]; intros pre; cbn [emissions].
  - destruct (Z.ltb_spec (cursor_after pre) (str_length text)); [|contradiction].
    intros [<-|[]]. exists pre, []. now repeat split.
  - intros H. apply in_app_or in H. destruct H as [H|H].
    + destruct (Z.ltb_spec (cursor_after pre) (idx m)); [|contradiction].
      destruct H as [<-|[]]. exists pre, (m :: post). now repeat split.
    + destruct (IH _ H) as (pre' & post' & He & Ht).
      exists pre', post'. split; [|exact Ht].
      rewrite <- He, <- app_assoc. reflexivity.
Qed.

Lemma in_buildSegments h text issues s :
  In s (buildSegments h text issues) ->
  exists pre post,
    sorted_markers h issues = (pre ++ post)%list
    /\ emitted_at h text pre post s.
Proof.
  rewrite buildSegments_emissions. intros H.
  apply in_emissions in H. destruct H as (pre & post & He & Hs).
  now exists pre, post.
Qed.

(** C10: every emitted segment takes its type and its tip from one and the
    same annotation, the one that governs it where it is emitted: the
    segment is emitted after some processed markers [pre] (its text is the
    slice from the cursor after [pre] to the next marker, or to the end of
    the text), and when annotation [r] is the last-added one still present
    after [pre], the segment has the kind of [r] as its type and the tip of
    [r] (none when [r] has none) as its tip; when no annotation is present
    after [pre], it is plain without a tip; and a plain segment never has a
    tip. *)
Theorem C10_segment_tip h text issues s :
  In s (buildSegments h text issues) ->
  (exists pre post,
     sorted_markers h issues = (pre ++ post)%list /\
     emitted_at h text pre post s /\
     match governing pre with
     | Some r => In r issues
                 /\ seg_type s = kind (type (h r)) /\ seg_tip s = tip (h r)
     | None => seg_type s = plain /\ seg_tip s = None
     end)
  /\ (seg_type s = plain -> seg_tip s = None).
Proof.
  intros H. apply in_buildSegments in H.
  destruct H as (pre & post & He & Hem).
  pose proof Hem as (Hty & Htip & _). split.
  - exists pre, post. split; [exact He|]. split; [exact Hem|].
    destruct (governing pre) as [r|] eqn:Hg; cbn in Hty, Htip; [|now split].
    split; [|now split]. eapply governing_in; eauto.
  - rewrite Hty, Htip. destruct (governing pre); [discriminate | reflexivity].
Qed.

(** ** Independence from the references *)

Section Relabel.
Variables (h h' : store) (text : jsstring) (f : ref -> ref) (P : ref -> Prop).
Hypothesis f_inj : forall x y, P x -> P y -> f x = f y -> x = y.
Hypothesis f_store : forall r, P r -> h' (f r) = h r.

Lemma top_map s : top (map f s) = option_map f (top s).
Proof. unfold top. rewrite <- map_rev. now destruct (rev s). Qed.

Lemma active_relabel s :
  Forall P s ->
  active_type h' (top (map f s)) = active_type h (top s)
  /\ active_tip h' (top (map f s)) = active_tip h (top s).
Proof.
  intros Hs. rewrite top_map. destruct (top s) as [r|] eqn:Ht; [|now split].
  apply top_in in Ht. rewrite Forall_forall in Hs.
  cbn. now rewrite f_store by auto.
Qed.

Lemma apply_marker_relabel s m :
  Forall P s -> P (issue m) ->
  apply_marker (map f s) (relabel f m) = map f (apply_marker s m).
Proof.
  intros Hs Hm. unfold apply_marker. cbn [relabel open issue].
  destruct (open m); [now rewrite map_app|].
  induction Hs as [|x s Hx Hs IH]; [reflexivity|]. cbn [map filter].
  rewrite IH. destruct (Nat.eqb_spec x (issue m)) as [->|Hne].
  - now rewrite Nat.eqb_refl.
  - destruct (Nat.eqb_spec (f x) (f (issue m))) as [He|_]; [|reflexivity].
    exfalso. apply Hne. now apply f_inj.
Qed.

Lemma apply_marker_Forall s m :
  Forall P s -> P (issue m) -> Forall P (apply_marker s m).
Proof.
  intros Hs Hm. unfold apply_marker. destruct (open m).
  - apply Forall_app. split; [trivial | now constructor].
  - rewrite Forall_forall in *. intros x Hx. apply filter_In in Hx. now apply Hs.
Qed.

Lemma step_relabel st m :
  Forall P (stack st) -> P (issue m) ->
  step h' text (relabel_state f st) (relabel f m)
  = relabel_state f (step h text st m).
Proof.
  intros Hs Hm. rewrite !step_unfold. unfold relabel_state.
  cbn [segs cursor stack relabel idx].
  destruct (active_relabel (stack st) Hs) as [-> ->].
  rewrite (apply_marker_relabel _ _ Hs Hm).
  now destruct (cursor st <? idx m).
Qed.

Lemma step_stack_Forall st m :
  Forall P (stack st) -> P (issue m) -> Forall P (stack (step h text st m)).
Proof.
  intros Hs Hm. rewrite step_unfold.
  destruct (cursor st <? idx m); cbn [stack]; now apply apply_marker_Forall.
Qed.

Lemma fold_relabel ms : forall st,
  Forall P (stack st) -> Forall (fun m => P (issue m)) ms ->
  fold_left (step h' text) (map (relabel f) ms) (relabel_state f st)
  = relabel_state f (fold_left (step h text) ms st)
  /\ Forall P (stack (fold_left (step h text) ms st)).
Proof.
  induction ms as [|m ms IH]; intros st Hs Hms; [now split|].
  apply Forall_cons_iff in Hms. destruct Hms as [Hm Hms].
  cbn [map fold_left]. rewrite step_relabel by trivial.
  apply IH; trivial. now apply step_stack_Forall.
Qed.

Lemma finish_relabel st :
  Forall P (stack st) ->
  finish h' text (relabel_state f st) = finish h text st.
Proof.
  intros Hs. unfold finish, relabel_state. cbn [segs cursor stack].
  now destruct (active_relabel (stack st) Hs) as [-> ->].
Qed.

Lemma markers_of_relabel issues :
  Forall P issues ->
  markers_of h' (map f issues) = map (relabel f) (markers_of h issues).
Proof.
  induction 1 as [|r l Hr Hl IH]; [reflexivity|].
  unfold markers_of in *. cbn [map flat_map app]. rewrite IH.
  now rewrite f_store by trivial.
Qed.

Lemma buildSegments_relabel issues :
  Forall P issues ->
  buildSegments h' text (map f issues) = buildSegments h text issues.
Proof.
  intros Hall. unfold buildSegments, sorted_markers.
  rewrite markers_of_relabel by trivial.
  rewrite (js_sort_map cmp (relabel f)) by reflexivity.
  fold (sorted_markers h issues). unfold sweep.
  destruct (fold_relabel (sorted_markers h issues) init) as [He Hst].
  - constructor.
  - rewrite Forall_forall in *. intros m Hm.
    apply Hall. now apply sorted_markers_in, markers_of_in in Hm.
  - change init with (relabel_state f init) at 1.
    rewrite He. now apply finish_relabel.
Qed.
End Relabel.

(** The output depends on the store only through the listed annotations. *)
Lemma buildSegments_ext h h' text issues :
  (forall r, In r issues -> h' r = h r) ->
  buildSegments h' text issues = buildSegments h text issues.
Proof.
  intros Hh. rewrite <- (map_id issues) at 1.
  apply (buildSegments_relabel h h' text (fun r => r) (fun r => In r issues));
    trivial.
  now apply Forall_forall.
Qed.

(** ** Stability and determinism *)

Lemma rank_open m p : (rank m =? 2 * p) = open m && (idx m =? p).
Proof.
  unfold rank. destruct (open m); cbn [andb];
    destruct (Z.eqb_spec (idx m) p); 
    match goal with |- (?x =? ?y) = _ => destruct (Z.eqb_spec x y) end;
    trivial; lia.
Qed.

Lemma rank_close m p : (rank m =? 2 * p + 1) = negb (open m) && (idx m =? p).
Proof.
  unfold rank. destruct (open m); cbn [andb negb];
    destruct (Z.eqb_spec (idx m) p); 
    match goal with |- (?x =? ?y) = _ => destruct (Z.eqb_spec x y) end;
    trivial; lia.
Qed.

Lemma markers_of_opens h issues p :
  map issue (filter (fun m => open m && (idx m =? p)) (markers_of h issues))
  = filter (fun r => start (h r) =? p) issues.
Proof.
  induction issues as [|r l IH]; [reflexivity|].
  unfold markers_of in *. cbn [flat_map app filter open idx andb].
  rewrite <- IH. now destruct (start (h r) =? p).
Qed.

Lemma markers_of_closes h issues p :
  map issue (filter (fun m => negb (open m) && (idx m =? p)) (markers_of h issues))
  = filter (fun r => end_ (h r) =? p) issues.
Proof.
  induction issues as [|r l IH]; [reflexivity|].
  unfold markers_of in *. cbn [flat_map app filter open idx andb negb].
  rewrite <- IH. now destruct (end_ (h r) =? p).
Qed.

(** C8: the open markers of one position are processed in the order of
    their annotations in the input list, and so are the close markers of
    one position; and a run on the same text and on an annotation list with
    the same contents (possibly held by other objects) returns the same
    segments. *)
Theorem C8_stable_and_deterministic h text issues :
  (forall p,
     map issue (filter (fun m => open m && (idx m =? p))
                       (sorted_markers h issues))
     = filter (fun r => start (h r) =? p) issues)
  /\
  (forall p,
     map issue (filter (fun m => negb (open m) && (idx m =? p))
                       (sorted_markers h issues))
     = filter (fun r => end_ (h r) =? p) issues)
  /\
  (forall h' f,
     (forall x y, In x issues -> In y issues -> f x = f y -> x = y) ->
     (forall r, In r issues -> h' (f r) = h r) ->
     buildSegments h' text (map f issues) = buildSegments h text issues).
Proof.
  split; [|split].
  - intros p. rewrite <- markers_of_opens. f_equal. unfold sorted_markers.
    rewrite (filter_ext _ (fun m => rank m =? 2 * p))
      by (intros; now rewrite rank_open).
    rewrite (js_sort_stable cmp rank cmp_rank).
    apply filter_ext. intros; apply rank_open.
  - intros p. rewrite <- markers_of_closes. f_equal. unfold sorted_markers.
    rewrite (filter_ext _ (fun m => rank m =? 2 * p + 1))
      by (intros; now rewrite rank_close).
    rewrite (js_sort_stable cmp rank cmp_rank).
    apply filter_ext. intros; apply rank_close.
  - intros h' f Hinj Hh.
    apply (buildSegments_relabel h h' text f (fun r => In r issues)); trivial.
    now apply Forall_forall.
Qed.

(** ** Zero-length segments *)

Lemma fold_max_ge ms : forall c,
  c <= fold_left (fun c m => Z.max c (idx m)) ms c.
Proof.
  induction ms as [|m ms IH]; intros c; cbn [fold_left]; [lia|].
  specialize (IH (Z.max c (idx m))). lia.
Qed.

Lemma cursor_after_nonneg ms : 0 <= cursor_after ms.
Proof. apply fold_max_ge. Qed.

Lemma slice_nonempty text a b :
  0 <= a -> a < b -> a < str_length text -> slice text a b <> [].
Proof.
  intros Ha Hab Hlen He.
  pose proof (slice_length text a b Ha (Z.lt_le_incl _ _ Hab)) as Hl.
  rewrite He in Hl. cbn in Hl. lia.
Qed.

Example empty_segment :
  buildSegments (store_of [mkIssue spell 7 9 None]) (js "hello"%string) [0%nat]
  = [mkSegment (js "hello"%string) plain None; mkSegment [] (kind spell) None].
Proof. reflexivity. Qed.

(** C7, as stated, fails: an annotation that lies beyond the end of the
    text makes [buildSegments] emit a segment with an empty text. *)
Lemma C7_counterexample :
  ~ (forall h text issues s,
       In s (buildSegments h text issues) -> seg_text s <> []).
Proof.
  intros H.
  apply (H (store_of [mkIssue spell 7 9 None]) (js "hello"%string) [0%nat]
           (mkSegment [] (kind spell) None)); [|reflexivity].
  right; now left.
Qed.

(** C7, amended: when no annotation starts or ends beyond the end of the
    text, every segment [buildSegments] returns has a non-empty text. *)
Theorem C7_no_empty_segment_in_range h text issues s :
  (forall r, In r issues ->
     start (h r) <= str_length text /\ end_ (h r) <= str_length text) ->
  In s (buildSegments h text issues) -> seg_text s <> [].
Proof.
  intros Hr H. apply in_buildSegments in H.
  destruct H as (pre & post & He & _ & _ & Hs).
  pose proof (cursor_after_nonneg pre) as H0.
  destruct post as [|m post]; destruct Hs as [Hlt ->].
  - unfold slice_from. apply slice_nonempty; lia.
  - apply slice_nonempty; trivial.
    assert (Hm : In m (sorted_markers h issues))
      by (rewrite He; apply in_or_app; right; now left).
    apply sorted_markers_in, markers_of_in in Hm. destruct Hm as [Hin Hidx].
    specialize (Hr _ Hin). destruct (open m); lia.
Qed.

(** ** Removing one element before sorting *)

Section SortRemove.
Context {A : Type} (compare : A -> A -> Z) (rank : A -> Z).
Hypothesis compare_rank : forall a b, (0 <? compare a b) = (rank b <? rank a).

Lemma insert_split x l :
  exists l1 l2, insert compare x l = (l1 ++ x :: l2)%list /\ l = (l1 ++ l2)%list.
Proof.
  induction l as [|y l (l1 & l2 & Hi & Hl)]; cbn [insert].
  - now exists [], [].
  - destruct (0 <? compare x y).
    + exists (y :: l1), l2. cbn [app]. now rewrite Hi, Hl.
    + now exists [], (y :: l).
Qed.

Lemma insert_remove a x l1 : forall l2,
  StronglySorted (rank_le rank) (l1 ++ x :: l2) ->
  exists l1' l2',
    insert compare a (l1 ++ x :: l2) = (l1' ++ x :: l2')%list
    /\ insert compare a (l1 ++ l2) = (l1' ++ l2')%list.
Proof.
  induction l1 as [|y l1 IH]; intros l2 Hs; cbn [app insert] in *.
  - rewrite compare_rank. destruct (Z.ltb_spec (rank x) (rank a)).
    + now exists [], (insert compare a l2).
    + exists [a], l2. split; [reflexivity|]. cbn [app].
      destruct l2 as [|b l2]; [reflexivity|]. cbn [insert].
      rewrite compare_rank.
      apply StronglySorted_inv in Hs. destruct Hs as [_ Hx].
      apply Forall_inv in Hx. unfold rank_le in Hx.
      destruct (Z.ltb_spec (rank b) (rank a)); [lia | reflexivity].
  - destruct (0 <? compare a y).
    + apply StronglySorted_inv in Hs. destruct Hs as [Hs _].
      destruct (IH _ Hs) as (l1' & l2' & H1 & H2).
      exists (y :: l1'), l2'. cbn [app]. now rewrite H1, H2.
    + now exists (a :: y :: l1), l2.
Qed.

Lemma js_sort_remove x l1 : forall l2,
  exists s1 s2,
    js_sort compare (l1 ++ x :: l2) = (s1 ++ x :: s2)%list
    /\ js_sort compare (l1 ++ l2) = (s1 ++ s2)%list.
Proof.
  induction l1 as [|a l1 IH]; intros l2; cbn [app js_sort fold_right].
  - apply insert_split.
  - fold (js_sort compare (l1 ++ x :: l2)). fold (js_sort compare (l1 ++ l2)).
    destruct (IH l2) as (s1 & s2 & H1 & H2). rewrite H1, H2.
    apply insert_remove. rewrite <- H1.
    now apply js_sort_sorted.
Qed.
End SortRemove.

(** ** Zero-width annotations *)

Lemma markers_of_app h l1 l2 :
  markers_of h (l1 ++ l2) = (markers_of h l1 ++ markers_of h l2)%list.
Proof. apply flat_map_app. Qed.

Lemma markers_of_intro h issues r :
  In r issues ->
  In (mkMarker (start (h r)) r true) (markers_of h issues)
  /\ In (mkMarker (end_ (h r)) r false) (markers_of h issues).
Proof.
  intros Hr. unfold markers_of.
  split; apply in_flat_map; exists r; (split; [trivial|]); cbn; auto.
Qed.

(** The sorted markers of a list with a zero-width annotation [z], against
    those of the list without it. *)
Lemma sorted_markers_remove h l1 z l2 :
  start (h z) = end_ (h z) ->
  exists A B D,
    sorted_markers h (l1 ++ z :: l2)
    = (A ++ mkMarker (start (h z)) z true
         :: B ++ mkMarker (start (h z)) z false :: D)%list
    /\ sorted_markers h (l1 ++ l2) = (A ++ B ++ D)%list.
Proof.
  intros Hz. unfold sorted_markers. rewrite !markers_of_app.
  change (markers_of h (z :: l2))
    with (mkMarker (start (h z)) z true
            :: mkMarker (end_ (h z)) z false :: markers_of h l2).
  rewrite <- Hz.
  set (Zo := mkMarker (start (h z)) z true).
  set (Zc := mkMarker (start (h z)) z false).
  set (M1 := markers_of h l1). set (M2 := markers_of h l2).
  destruct (js_sort_remove cmp rank cmp_rank Zo M1 (Zc :: M2))
    as (s1 & s2 & Hs & Hs').
  destruct (js_sort_remove cmp rank cmp_rank Zc M1 M2)
    as (t1 & t2 & Ht & Ht').
  rewrite Hs, Ht'. rewrite Hs' in Ht.
  apply app_eq_app in Ht. destruct Ht as (l & [[H1 H2]|[H1 H2]]).
  - destruct l as [|x l]; cbn [app] in H2.
    + exists s1, [], t2. rewrite app_nil_r in H1. subst s1 s2. now split.
    + exfalso. injection H2 as <- _.
      pose proof (js_sort_sorted cmp rank cmp_rank (M1 ++ Zo :: Zc :: M2)) as S.
      rewrite Hs, H1, <- app_assoc in S. cbn [app] in S.
      apply sorted_pair in S. unfold rank_le, rank, Zo, Zc in S. cbn in S. lia.
  - exists s1, l, t2. subst t1 s2. split; [reflexivity | now rewrite app_assoc].
Qed.

(** Markers at or before the cursor emit nothing. *)
Lemma fold_step_no_emit h text B : forall st,
  Forall (fun m => idx m <= cursor st) B ->
  fold_left (step h text) B st
  = mkState (segs st) (cursor st) (fold_left apply_marker B (stack st)).
Proof.
  induction B as [|m B IH]; intros st HB; cbn [fold_left].
  - now destruct st.
  - apply Forall_cons_iff in HB. destruct HB as [Hm HB].
    rewrite step_unfold.
    destruct (Z.ltb_spec (cursor st) (idx m)); [lia|].
    now rewrite IH.
Qed.

Lemma drop_notin z s : ~ In z s -> drop z s = s.
Proof.
  induction s as [|x s IH]; cbn [drop filter In]; intros H; [reflexivity|].
  destruct (Nat.eqb_spec x z) as [->|_]; [tauto|]. cbn [negb].
  unfold drop in IH. rewrite IH; tauto.
Qed.

Lemma drop_snoc z s : drop z (s ++ [z]) = drop z s.
Proof.
  unfold drop. rewrite filter_app. cbn [filter].
  rewrite Nat.eqb_refl. apply app_nil_r.
Qed.

Lemma apply_marker_drop z m s :
  issue m <> z -> drop z (apply_marker s m) = apply_marker (drop z s) m.
Proof.
  intros Hm. unfold apply_marker, drop. destruct (open m).
  - rewrite filter_app. cbn [filter].
    now rewrite (proj2 (Nat.eqb_neq _ _) Hm).
  - rewrite !filter_filter. apply filter_ext. intros x. apply andb_comm.
Qed.

Lemma apply_close_drop s p z : apply_marker s (mkMarker p z false) = drop z s.
Proof. reflexivity. Qed.

Lemma drop_drop z s : drop z (drop z s) = drop z s.
Proof.
  unfold drop. rewrite filter_filter. apply filter_ext. intros x.
  now destruct (negb (Nat.eqb x z)).
Qed.

Lemma fold_apply_others z X : forall s,
  drop z (fold_left apply_marker X s)
  = fold_left apply_marker (others z X) (drop z s).
Proof.
  induction X as [|m X IH]; intros s; [reflexivity|].
  cbn [fold_left others filter]. rewrite IH. fold (others z X).
  destruct (Nat.eqb_spec (issue m) z) as [E|E]; cbn [negb fold_left].
  - f_equal. unfold apply_marker. rewrite E.
    destruct (open m); [apply drop_snoc | apply drop_drop].
  - now rewrite apply_marker_drop.
Qed.

Lemma state_eq (st1 st2 : state) :
  segs st1 = segs st2 -> cursor st1 = cursor st2 -> stack st1 = stack st2 ->
  st1 = st2.
Proof. destruct st1, st2; cbn; intros; now subst. Qed.

(** The markers of a zero-width annotation around the other markers [B] of
    its position: same segments and cursor as [B] alone, and the same
    stack but for [z]. *)
Lemma zero_width_group h text z p B st :
  Forall (fun m => idx m = p) B ->
  p <= cursor st \/ B <> [] ->
  let X1 := fold_left (step h text)
              (mkMarker p z true :: B ++ [mkMarker p z false]) st in
  let X2 := fold_left (step h text) B st in
  segs X1 = segs X2 /\ cursor X1 = cursor X2 /\ p <= cursor X2
  /\ stack X1 = drop z (stack X2).
Proof.
  intros HB Hc X1 X2.
  assert (HX1 : X1 = mkState (segs (emit h text st (mkMarker p z true)))
                             (Z.max (cursor st) p)
                             (fold_left apply_marker (others z B)
                                        (drop z (stack st)))).
  { unfold X1. cbn [fold_left]. rewrite fold_left_app. cbn [fold_left].
    set (st1 := step h text st (mkMarker p z true)).
    assert (Hst1 : segs st1 = segs (emit h text st (mkMarker p z true))
                   /\ cursor st1 = Z.max (cursor st) p
                   /\ stack st1 = (stack st ++ [z])%list).
    { unfold st1, step, emit. cbn [idx open issue].
      destruct (Z.ltb_spec (cursor st) p); cbn [segs stack cursor apply_marker open issue];
        repeat split; lia. }
    destruct Hst1 as (Hs1 & Hc1 & Hk1).
    rewrite (fold_step_no_emit h text B st1)
      by (eapply Forall_impl; [|exact HB]; intros m ->; lia).
    rewrite step_unfold. cbn [cursor stack segs idx].
    destruct (Z.ltb_spec (cursor st1) p); [lia|].
    apply state_eq; cbn [segs cursor stack]; trivial.
    unfold apply_marker at 1. cbn [open issue].
    fold (drop z (fold_left apply_marker B (stack st1))).
    now rewrite fold_apply_others, Hk1, drop_snoc. }
  assert (HX2 : X2 = mkState (segs (emit h text st (mkMarker p z true)))
                             (Z.max (cursor st) p)
                             (fold_left apply_marker B (stack st))).
  { unfold X2, emit. cbn [idx].
    destruct (Z.ltb_spec (cursor st) p) as [Hlt|Hge].
    - destruct Hc as [Hc|Hne]; [lia|].
      destruct B as [|m B]; [congruence|].
      apply Forall_cons_iff in HB. destruct HB as [Hm HB].
      cbn [fold_left]. rewrite step_unfold, Hm.
      destruct (Z.ltb_spec (cursor st) p); [|lia].
      rewrite fold_step_no_emit
        by (cbn [cursor]; eapply Forall_impl; [|exact HB]; intros m' ->; lia).
      apply state_eq; cbn [segs cursor stack]; trivial. lia.
    - rewrite fold_step_no_emit
        by (eapply Forall_impl; [|exact HB]; intros m ->; lia).
      apply state_eq; cbn [segs cursor stack]; trivial. lia. }
  rewrite HX1, HX2. cbn [segs cursor stack].
  repeat split; try lia. now rewrite fold_apply_others.
Qed.

Lemma apply_open_close z p q s :
  ~ In z s ->
  apply_marker (apply_marker s (mkMarker p z true)) (mkMarker q z false) = s.
Proof.
  intros Hz. unfold apply_marker. cbn [open issue].
  fold (drop z (s ++ [z])). now rewrite drop_snoc, drop_notin.
Qed.

Lemma zero_width_next h text z p d st :
  idx d = p -> ~ In z (stack st) ->
  fold_left (step h text) [mkMarker p z true; mkMarker p z false; d] st
  = fold_left (step h text) [d] st.
Proof.
  intros Hd Hz. cbn [fold_left]. rewrite !step_unfold.
  cbn [idx open issue]. rewrite Hd.
  destruct (cursor st <? p) eqn:E; cbn [cursor stack segs];
    rewrite ?Z.ltb_irrefl, ?E; cbn [cursor stack segs];
    rewrite ?E; cbn [cursor stack segs];
    now rewrite apply_open_close.
Qed.

Lemma cursor_after_ge ms m : In m ms -> idx m <= cursor_after ms.
Proof.
  unfold cursor_after. generalize 0.
  induction ms as [|x ms IH]; intros c; [contradiction|].
  cbn [fold_left]. intros [->|H]; [|now apply IH].
  pose proof (fold_max_ge ms (Z.max c (idx m))). lia.
Qed.

Lemma still_open_split ms r :
  In r (still_open ms) ->
  exists p1 mo p2,
    ms = (p1 ++ mo :: p2)%list
    /\ open mo = true /\ issue mo = r /\ closed_later r p2 = false.
Proof.
  induction ms as [|m ms IH]; cbn [still_open]; [contradiction|].
  assert (Hrec : In r (still_open ms) ->
                 exists p1 mo p2, m :: ms = (p1 ++ mo :: p2)%list
                   /\ open mo = true /\ issue mo = r /\ closed_later r p2 = false).
  { intros H. destruct (IH H) as (p1 & mo & p2 & -> & Hrest).
    now exists (m :: p1), mo, p2. }
  destruct (open m) eqn:Ho; cbn [andb]; [|exact Hrec].
  destruct (closed_later (issue m) ms) eqn:Hc; cbn [negb]; [exact Hrec|].
  intros [<-|H]; [|auto]. now exists [], m, ms.
Qed.

Lemma closed_later_in r ms m :
  In m ms -> open m = false -> issue m = r -> closed_later r ms = true.
Proof.
  intros Hm Ho Hi. apply existsb_exists. exists m. split; [trivial|].
  unfold closes. rewrite Ho, Hi, Nat.eqb_refl. reflexivity.
Qed.

(** A zero-width annotation is never in the active collection when a
    segment is emitted. *)
Lemma zero_width_inactive h text issues z pre post s :
  start (h z) = end_ (h z) ->
  sorted_markers h issues = (pre ++ post)%list ->
  emitted_at h text pre post s ->
  ~ In z (still_open pre).
Proof.
  intros Hz He (_ & _ & Hem) Hin.
  destruct (still_open_split _ _ Hin) as (p1 & mo & p2 & -> & Ho & Hi & Hcl).
  pose proof (sorted_markers_sorted h issues) as S. rewrite He in S.
  assert (Hmo : In mo (sorted_markers h issues))
    by (rewrite He; apply in_or_app; left; apply in_or_app; right; now left).
  apply sorted_markers_in, markers_of_in in Hmo.
  rewrite Ho, Hi in Hmo. destruct Hmo as [Hzin Hidx].
  set (mc := mkMarker (end_ (h z)) z false).
  assert (Hmc : In mc (sorted_markers h issues))
    by (apply sorted_markers_in; now apply markers_of_intro).
  assert (Hcur : idx mo <= cursor_after (p1 ++ mo :: p2))
    by (apply cursor_after_ge, in_or_app; right; now left).
  rewrite He in Hmc. apply in_app_or in Hmc. destruct Hmc as [Hmc|Hmc].
  - apply in_app_or in Hmc. destruct Hmc as [Hmc|[Hmc|Hmc]].
    + rewrite <- app_assoc in S. cbn [app] in S.
      apply (sorted_mid_r _ _ _ _ S) in Hmc.
      unfold rank_le, rank, mc in Hmc. rewrite Ho in Hmc.
      cbn [idx open] in Hmc. lia.
    + rewrite Hmc in Ho. discriminate.
    + rewrite (closed_later_in z p2 mc) in Hcl; trivial; discriminate.
  - destruct post as [|m post]; [contradiction|]. destruct Hem as [Hlt _].
    destruct Hmc as [Hmc|Hmc].
    + rewrite Hmc in Hlt. unfold mc in Hlt. cbn [idx] in Hlt. lia.
    + apply (sorted_mid_l _ _ _ _ S) in Hmc.
      unfold rank_le, rank, mc in Hmc. cbn [idx open] in Hmc.
      destruct (open m); lia.
Qed.

(** Removing a zero-width annotation whose position is not a new boundary
    leaves the output unchanged. *)
Lemma zero_width_removable h text l1 z l2 :
  start (h z) = end_ (h z) ->
  (start (h z) <= 0
   \/ exists r, In r (l1 ++ l2)
                /\ (start (h r) = start (h z) \/ end_ (h r) = start (h z))) ->
  buildSegments h text (l1 ++ z :: l2) = buildSegments h text (l1 ++ l2).
Proof.
  intros Hz Hcoin.
  destruct (sorted_markers_remove h l1 z l2 Hz) as (A & B & D & Hms & Hms').
  set (p := start (h z)) in *.
  set (Zo := mkMarker p z true) in *. set (Zc := mkMarker p z false) in *.
  pose proof (sorted_markers_sorted h (l1 ++ z :: l2)) as S. rewrite Hms in S.
  pose proof (sorted_markers_sorted h (l1 ++ l2)) as T. rewrite Hms' in T.
  assert (S' : StronglySorted (rank_le rank) ((A ++ Zo :: B) ++ Zc :: D))
    by (rewrite <- app_assoc; exact S).
  assert (HB : Forall (fun m => idx m = p) B).
  { apply Forall_forall. intros m Hm.
    assert (H1 : rank_le rank Zo m)
      by (apply (sorted_mid_l _ _ _ _ S), in_or_app; now left).
    assert (H2 : rank_le rank m Zc)
      by (apply (sorted_mid_r _ _ _ _ S'), in_or_app; right; now right).
    unfold rank_le, rank, Zo, Zc in H1, H2. cbn [idx open] in H1, H2.
    destruct (open m); lia. }
  assert (HD : forall d, In d D -> rank_le rank Zc d)
    by (intros d; apply (sorted_mid_l _ _ _ _ S')).
  (* an open marker of [z] among the markers of the shorter list *)
  assert (Hopen : forall m, In m (A ++ B ++ D) -> issue m = z -> open m = true ->
                            idx m = p /\ In Zc (A ++ B ++ D)).
  { intros m Hm Hi Ho. rewrite <- Hms' in Hm |- *.
    apply sorted_markers_in, markers_of_in in Hm. rewrite Hi, Ho in Hm.
    destruct Hm as [Hin Hidx]. split; [exact Hidx|].
    apply sorted_markers_in. unfold Zc. rewrite Hz.
    now apply markers_of_intro. }
  (* [z] in the stack after [A]: the cursor is at [p] or beyond *)
  assert (HzA : In z (stack (sweep h text A)) -> p <= cursor (sweep h text A)).
  { rewrite sweep_stack, sweep_cursor. intros Hin.
    apply still_open_in in Hin. destruct Hin as (m & Hm & Hi & Ho).
    destruct (Hopen m) as [<- _]; trivial; [apply in_or_app; now left|].
    now apply cursor_after_ge. }
  assert (Hkey : fold_left (step h text) (Zo :: B ++ Zc :: D) (sweep h text A)
                 = fold_left (step h text) (B ++ D) (sweep h text A)).
  { assert (Hcase : (p <= cursor (sweep h text A) \/ B <> [])
                    \/ (cursor (sweep h text A) < p /\ B = []
                        /\ exists d D', D = d :: D' /\ idx d = p)).
    { destruct (Z.le_gt_cases p (cursor (sweep h text A))) as [Hle|Hgt];
        [now left; left|].
      destruct Hcoin as [H0|(r & Hr & Hpos)].
      - left; left. rewrite sweep_cursor.
        pose proof (cursor_after_nonneg A). lia.
      - assert (Hmr : exists mr, In mr (A ++ B ++ D) /\ idx mr = p).
        { destruct (markers_of_intro h _ r Hr) as [Ho Hc].
          apply sorted_markers_in in Ho, Hc. rewrite Hms' in Ho, Hc.
          destruct Hpos as [E|E]; eauto. }
        destruct Hmr as (mr & Hin & Hidx).
        apply in_app_or in Hin. destruct Hin as [Hin|Hin].
        { left; left. rewrite sweep_cursor, <- Hidx.
          now apply cursor_after_ge. }
        apply in_app_or in Hin. destruct Hin as [Hin|Hin].
        { left; right. intros E. rewrite E in Hin. contradiction. }
        destruct B as [|b B]; [right | left; right; discriminate].
        split; [lia|]. split; [reflexivity|].
        destruct D as [|d D']; [contradiction|]. exists d, D'.
        split; [reflexivity|].
        assert (H1 : rank_le rank Zc d) by (apply HD; now left).
        assert (H2 : rank_le rank d mr).
        { destruct Hin as [->|Hin]; [unfold rank_le; lia|].
          cbn [app] in T. now apply (sorted_mid_l _ _ _ _ T). }
        unfold rank_le, rank, Zc in H1, H2. cbn [idx open] in H1, H2.
        destruct (open d), (open mr); lia. }
    destruct Hcase as [Hc|(Hgt & -> & d & D' & -> & Hd)].
    - replace (Zo :: B ++ Zc :: D)%list with ((Zo :: B ++ [Zc]) ++ D)%list
        by (cbn [app]; now rewrite <- app_assoc).
      rewrite !fold_left_app.
      pose proof (zero_width_group h text z p B (sweep h text A) HB Hc) as HG.
      cbv zeta in HG. fold Zo Zc in HG.
      set (X1 := fold_left (step h text) (Zo :: B ++ [Zc]) (sweep h text A)) in *.
      set (X2 := fold_left (step h text) B (sweep h text A)) in *.
      destruct HG as (Hsegs & Hcur & Hp & Hst).
      destruct (in_dec Nat.eq_dec z (stack X2)) as [Hin|Hnin].
      + (* [z] is still open without its own markers: another close marker
           of [z] follows, at the same position *)
        assert (HX2 : stack X2 = still_open (A ++ B))
          by (unfold X2, sweep; rewrite <- fold_left_app;
              apply (sweep_stack h text (A ++ B))).
        rewrite HX2 in Hin.
        destruct (still_open_split _ _ Hin) as (p1 & mo & p2 & He & Ho & Hi & Hcl).
        assert (HZc : In Zc D).
        { destruct (Hopen mo) as [Hidx HZ]; trivial.
          { rewrite app_assoc, He. apply in_or_app. left.
            apply in_or_app. right. now left. }
          rewrite app_assoc, He in HZ, T.
          apply in_app_or in HZ. destruct HZ as [HZ|HZ]; [exfalso|exact HZ].
          apply in_app_or in HZ. destruct HZ as [HZ|[HZ|HZ]].
          - rewrite <- app_assoc in T. cbn [app] in T.
            apply (sorted_mid_r _ _ _ _ T) in HZ.
            unfold rank_le, rank, Zc in HZ. rewrite Ho, Hidx in HZ.
            cbn [idx open] in HZ. lia.
          - rewrite HZ in Ho. discriminate.
          - rewrite (closed_later_in z p2 Zc) in Hcl; trivial; discriminate. }
        destruct (in_split _ _ HZc) as (D1 & D2 & ->).
        assert (HD1 : Forall (fun m => idx m <= cursor X2) D1).
        { apply Forall_forall. intros m Hm.
          assert (H1 : rank_le rank Zc m)
            by (apply HD, in_or_app; now left).
          assert (T' : StronglySorted (rank_le rank) (((A ++ B) ++ D1) ++ Zc :: D2))
            by (rewrite <- !app_assoc; exact T).
          assert (H2 : rank_le rank m Zc)
            by (apply (sorted_mid_r _ _ _ _ T'), in_or_app; now right).
          unfold rank_le, rank, Zc in H1, H2. cbn [idx open] in H1, H2.
          destruct (open m); lia. }
        replace (D1 ++ Zc :: D2)%list with ((D1 ++ [Zc]) ++ D2)%list
          by now rewrite <- app_assoc.
        rewrite !fold_left_app. f_equal. cbn [fold_left].
        rewrite (fold_step_no_emit h text D1 X1) by now rewrite Hcur.
        rewrite (fold_step_no_emit h text D1 X2) by trivial.
        rewrite !step_unfold. unfold Zc. cbn [cursor segs stack idx].
        rewrite Hcur.
        destruct (Z.ltb_spec (cursor X2) p); [lia|].
        apply state_eq; cbn [segs cursor stack]; trivial.
        rewrite !apply_close_drop.
        now rewrite !fold_apply_others, Hst, drop_drop.
      + f_equal. apply state_eq; trivial.
        now rewrite Hst, drop_notin.
    - cbn [app].
      change (Zo :: Zc :: d :: D') with ([Zo; Zc; d] ++ D')%list.
      change (d :: D') with ([d] ++ D')%list.
      rewrite !fold_left_app. f_equal.
      apply zero_width_next; trivial. intros Hin. apply HzA in Hin. lia. }
  unfold buildSegments. rewrite Hms, Hms'. unfold sweep in *.
  rewrite fold_left_app, (fold_left_app _ A). now rewrite Hkey.
Qed.

Example zero_width_splits :
  buildSegments (store_of [mkIssue spell 3 3 None]) (js "hello world"%string) [0%nat]
  = [mkSegment (js "hel"%string) plain None;
     mkSegment (js "lo world"%string) plain None].
Proof. reflexivity. Qed.

(** C6, as stated, fails: a zero-width annotation strictly inside the text,
    at a position where nothing else starts or ends, splits the segment
    that contains its position. *)
Lemma C6_counterexample :
  ~ (forall h text l1 z l2,
       start (h z) = end_ (h z) ->
       buildSegments h text (l1 ++ z :: l2) = buildSegments h text (l1 ++ l2)).
Proof.
  intros H.
  specialize (H (store_of [mkIssue spell 3 3 None]) (js "hello world"%string)
                [] 0%nat [] eq_refl).
  vm_compute in H. discriminate H.
Qed.

(** C6, amended: a zero-width annotation is never in the active collection
    when a segment is emitted, so no segment is governed by it; and when
    its position is at most 0 or is the start or the end of another
    annotation of the list, the output is the output for the list without
    it. *)
Theorem C6_zero_width h text l1 z l2 :
  start (h z) = end_ (h z) ->
  (forall s, In s (buildSegments h text (l1 ++ z :: l2)) ->
     exists pre post,
       sorted_markers h (l1 ++ z :: l2) = (pre ++ post)%list
       /\ emitted_at h text pre post s
       /\ ~ In z (still_open pre)
       /\ governing pre <> Some z)
  /\
  ((start (h z) <= 0
    \/ exists r, In r (l1 ++ l2)
                 /\ (start (h r) = start (h z) \/ end_ (h r) = start (h z))) ->
   buildSegments h text (l1 ++ z :: l2) = buildSegments h text (l1 ++ l2)).
Proof.
  intros Hz. split.
  - intros s Hs. apply in_buildSegments in Hs.
    destruct Hs as (pre & post & He & Hem). exists pre, post.
    pose proof (zero_width_inactive h text _ z pre post s Hz He Hem) as Hn.
    split; [exact He | split; [exact Hem | split; [exact Hn|]]].
    intros Hg. apply Hn. now apply top_in.
  - now apply zero_width_removable.
Qed.

(** ** Clamping and normalisation *)

Lemma normalize_in_range L i :
  0 <= start i <= end_ i -> end_ i <= L -> normalize L i = i.
Proof.
  intros H1 H2. unfold normalize, clamp. destruct i as [t s e tp]; cbn in *.
  replace (Z.max 0 (Z.min s L)) with s by lia.
  replace (Z.max 0 (Z.min e L)) with e by lia.
  destruct (Z.ltb_spec e s); [lia | reflexivity].
Qed.

Lemma slice_clamp s a b :
  0 <= a -> a <= b ->
  slice s a b = slice s (Z.min a (str_length s)) (Z.min b (str_length s)).
Proof.
  intros Ha Hab. unfold slice.
  assert (0 <= str_length s) by (unfold str_length; lia).
  destruct (Z.ltb_spec a 0); [lia|]. destruct (Z.ltb_spec b 0); [lia|].
  destruct (Z.ltb_spec (Z.min a (str_length s)) 0); [lia|].
  destruct (Z.ltb_spec (Z.min b (str_length s)) 0); [lia|].
  now rewrite <- !Z.min_assoc, !Z.min_id.
Qed.

Example inverted_stays_open :
  buildSegments (store_of [mkIssue grammar 5 2 None]) (js "abcdefgh"%string) [0%nat]
  = [mkSegment (js "ab"%string) plain None;
     mkSegment (js "cde"%string) plain None;
     mkSegment (js "fgh"%string) (kind grammar) None].
Proof. reflexivity. Qed.

Example inverted_normalized :
  buildSegments (normalized 8 (store_of [mkIssue grammar 5 2 None]))
                (js "abcdefgh"%string) [0%nat]
  = [mkSegment (js "abcde"%string) plain None;
     mkSegment (js "fgh"%string) plain None].
Proof. reflexivity. Qed.

(** C5, as stated, fails: [buildSegments] does not clamp or normalise.  An
    inverted annotation [5,2) is not treated as zero-width at 5: its close
    marker is processed first and it governs the text from 5 on. *)
Lemma C5_counterexample :
  ~ (forall h text issues,
       buildSegments h text issues
       = buildSegments (normalized (str_length text) h) text issues).
Proof.
  intros H.
  specialize (H (store_of [mkIssue grammar 5 2 None]) (js "abcdefgh"%string) [0%nat]).
  vm_compute in H. discriminate H.
Qed.

(** C5, amended: [buildSegments] neither clamps, normalises nor drops:
    every listed annotation contributes an open marker at its start and a
    close marker at its end as they are.  It returns segments for every
    annotation list, whatever the offsets: their texts are slices within
    [0, L] and spell the whole text.  When every annotation already
    satisfies [0 <= start <= end <= L] the output is the output for the
    clamped and normalised annotations. *)
Theorem C5_no_clamping h text issues :
  (forall m, In m (sorted_markers h issues) <->
     exists r, In r issues
               /\ (m = mkMarker (start (h r)) r true
                   \/ m = mkMarker (end_ (h r)) r false))
  /\ seg_texts (buildSegments h text issues) = text
  /\ (forall s, In s (buildSegments h text issues) ->
        exists a b, 0 <= a <= b /\ b <= str_length text
                    /\ seg_text s = slice text a b)
  /\ ((forall r, In r issues ->
         0 <= start (h r) <= end_ (h r) /\ end_ (h r) <= str_length text) ->
      buildSegments h text issues
      = buildSegments (normalized (str_length text) h) text issues).
Proof.
  split; [|split; [|split]].
  - intros m. rewrite sorted_markers_in. unfold markers_of.
    rewrite in_flat_map. split; intros (r & Hr & Hm); exists r; (split; [trivial|]).
    + destruct Hm as [<-|[<-|[]]]; auto.
    + destruct Hm as [->| ->]; cbn; auto.
  - unfold buildSegments. apply covers_finish.
    apply sweep_inv; [apply covers_init | intros; now apply covers_step].
  - intros s Hs. apply in_buildSegments in Hs.
    destruct Hs as (pre & post & _ & _ & _ & Hs).
    pose proof (cursor_after_nonneg pre) as H0.
    assert (0 <= str_length text) by (unfold str_length; lia).
    destruct post as [|m post]; destruct Hs as [Hlt ->].
    + exists (cursor_after pre), (str_length text). repeat split; trivial; lia.
    + exists (Z.min (cursor_after pre) (str_length text)),
             (Z.min (idx m) (str_length text)).
      repeat split; try lia. apply slice_clamp; lia.
  - intros Hr. symmetry. apply buildSegments_ext. intros r Hin.
    destruct (Hr r Hin). now apply normalize_in_range.
Qed.

(** ** The theorems at concrete inputs *)

Lemma C2_close_by_identity_witness :
  let h := store_of [mkIssue grammar 0 10 None; mkIssue spell 5 15 None] in
  let text := js "The quick brown fox."%string in
  (0 <> 1)%nat /\ 15 <= str_length text
  /\ stack (sweep h text [mkMarker 0 0%nat true; mkMarker 5 1%nat true;
                          mkMarker 10 0%nat false]) = [1%nat]
  /\ buildSegments h text [0%nat; 1%nat] =
     [mkSegment (slice text 0 5) (kind grammar) None;
      mkSegment (slice text 5 10) (kind spell) None;
      mkSegment (slice text 10 15) (kind spell) None;
      mkSegment (slice_from text 15) plain None].
Proof.
  intros h text.
  assert (Hne : (0 <> 1)%nat) by discriminate.
  assert (Hlen : 15 <= str_length text) by (vm_compute; discriminate).
  destruct (proj2 (C2_close_by_identity h text) 0%nat 1%nat Hne Hlen
              eq_refl eq_refl eq_refl eq_refl) as (_ & _ & Hs & Hb & _).
  repeat split; trivial.
Defined.

Lemma C3_open_before_close_witness :
  let h := store_of [mkIssue grammar 0 5 None; mkIssue spell 5 10 None] in
  let text := js "The quick brown fox."%string in
  (0 <> 1)%nat /\ 10 <= str_length text
  /\ (exists pre mid post,
        sorted_markers h [0%nat; 1%nat]
        = (pre ++ mkMarker 5 1%nat true :: mid
               ++ mkMarker 5 0%nat false :: post)%list)
  /\ buildSegments h text [0%nat; 1%nat] =
     [mkSegment (slice text 0 5) (kind grammar) None;
      mkSegment (slice text 5 10) (kind spell) None;
      mkSegment (slice_from text 10) plain None].
Proof.
  intros h text.
  assert (Hne : (0 <> 1)%nat) by discriminate.
  assert (Hlen : 10 <= str_length text) by (vm_compute; discriminate).
  destruct (C3_open_before_close h text) as [Hord Hsc].
  destruct (Hsc 0%nat 1%nat Hne Hlen eq_refl eq_refl eq_refl eq_refl)
    as (Hb & _).
  split; [exact Hne | split; [exact Hlen | split; [|exact Hb]]].
  apply (Hord [0%nat; 1%nat] (mkMarker 5 1%nat true) (mkMarker 5 0%nat false));
    try reflexivity.
  - right; left; reflexivity.
  - right; right; left; reflexivity.
Defined.

Lemma C4_last_added_governs_witness :
  let h := store_of [mkIssue grammar 0 10 None; mkIssue clarity 3 6 None] in
  let text := js "The quick brown fox."%string in
  (0 <> 1)%nat /\ 10 <= str_length text
  /\ buildSegments h text [0%nat; 1%nat] =
     [mkSegment (slice text 0 3) (kind grammar) None;
      mkSegment (slice text 3 6) (kind clarity) None;
      mkSegment (slice text 6 10) (kind grammar) None;
      mkSegment (slice_from text 10) plain None].
Proof.
  intros h text.
  assert (Hne : (0 <> 1)%nat) by discriminate.
  assert (Hlen : 10 <= str_length text) by (vm_compute; discriminate).
  destruct (proj2 (C4_last_added_governs h text) 0%nat 1%nat None None
              Hne Hlen eq_refl eq_refl) as (Hb & _).
  repeat split; trivial.
Defined.

Lemma C5_no_clamping_witness :
  let h := store_of [mkIssue spell 0 3 None] in
  let text := js "Teh cat was nice."%string in
  let s := mkSegment (js "Teh"%string) (kind spell) None in
  (forall r, In r [0%nat] ->
     0 <= start (h r) <= end_ (h r) /\ end_ (h r) <= str_length text)
  /\ In s (buildSegments h text [0%nat])
  /\ buildSegments h text [0%nat]
     = buildSegments (normalized (str_length text) h) text [0%nat]
  /\ (exists a b, 0 <= a <= b /\ b <= str_length text
                  /\ seg_text s = slice text a b).
Proof.
  intros h text s.
  assert (Hr : forall r, In r [0%nat] ->
                 0 <= start (h r) <= end_ (h r) /\ end_ (h r) <= str_length text).
  { intros r [<-|[]]. vm_compute. repeat split; discriminate. }
  assert (Hs : In s (buildSegments h text [0%nat])) by (left; reflexivity).
  destruct (C5_no_clamping h text [0%nat]) as (_ & _ & Hsl & Hn).
  split; [exact Hr | split; [exact Hs | split; [exact (Hn Hr) | exact (Hsl s Hs)]]].
Defined.

Lemma C6_zero_width_witness :
  let h := store_of [mkIssue spell 0 5 None; mkIssue grammar 5 5 None] in
  let text := js "hello world"%string in
  let s := mkSegment (js "hello"%string) (kind spell) None in
  start (h 1%nat) = end_ (h 1%nat)
  /\ (exists r, In r ([0%nat] ++ [])
                /\ (start (h r) = start (h 1%nat) \/ end_ (h r) = start (h 1%nat)))
  /\ In s (buildSegments h text ([0%nat] ++ 1%nat :: []))
  /\ (exists pre post,
        sorted_markers h ([0%nat] ++ 1%nat :: []) = (pre ++ post)%list
        /\ emitted_at h text pre post s
        /\ ~ In 1%nat (still_open pre)
        /\ governing pre <> Some 1%nat)
  /\ buildSegments h text ([0%nat] ++ 1%nat :: [])
     = buildSegments h text ([0%nat] ++ []).
Proof.
  intros h text s.
  assert (Hz : start (h 1%nat) = end_ (h 1%nat)) by reflexivity.
  assert (Hn : exists r, In r ([0%nat] ++ [])
                 /\ (start (h r) = start (h 1%nat) \/ end_ (h r) = start (h 1%nat)))
    by (exists 0%nat; split; [now left | right; reflexivity]).
  assert (Hs : In s (buildSegments h text ([0%nat] ++ 1%nat :: [])))
    by (left; reflexivity).
  destruct (C6_zero_width h text [0%nat] 1%nat [] Hz) as [Ha Hb].
  split; [exact Hz | split; [exact Hn | split; [exact Hs | split]]].
  - exact (Ha s Hs).
  - apply Hb. right. exact Hn.
Defined.

Lemma C7_no_empty_segment_in_range_witness :
  let h := store_of [mkIssue spell 0 3 None] in
  let text := js "Teh cat was nice."%string in
  let s := mkSegment (js "Teh"%string) (kind spell) None in
  (forall r, In r [0%nat] ->
     start (h r) <= str_length text /\ end_ (h r) <= str_length text)
  /\ In s (buildSegments h text [0%nat])
  /\ seg_text s <> [].
Proof.
  intros h text s.
  assert (Hr : forall r, In r [0%nat] ->
                 start (h r) <= str_length text /\ end_ (h r) <= str_length text).
  { intros r [<-|[]]. vm_compute. split; discriminate. }
  assert (Hs : In s (buildSegments h text [0%nat])) by (left; reflexivity).
  split; [exact Hr | split; [exact Hs|]].
  exact (C7_no_empty_segment_in_range h text [0%nat] s Hr Hs).
Defined.

Lemma C8_stable_and_deterministic_witness :
  let h := store_of [mkIssue spell 0 3 None; mkIssue grammar 0 3 None] in
  let h' := fun r => h (pred r) in
  let text := js "Teh cat was nice."%string in
  (forall x y, In x [1%nat; 0%nat] -> In y [1%nat; 0%nat] -> S x = S y -> x = y)
  /\ (forall r, In r [1%nat; 0%nat] -> h' (S r) = h r)
  /\ map issue (filter (fun m => open m && (idx m =? 0))
                       (sorted_markers h [1%nat; 0%nat])) = [1%nat; 0%nat]
  /\ buildSegments h' text (map S [1%nat; 0%nat])
     = buildSegments h text [1%nat; 0%nat].
Proof.
  intros h h' text.
  assert (Hinj : forall x y, In x [1%nat; 0%nat] -> In y [1%nat; 0%nat] ->
                   S x = S y -> x = y) by (intros x y _ _ E; now injection E).
  assert (Hh : forall r, In r [1%nat; 0%nat] -> h' (S r) = h r)
    by (intros r _; reflexivity).
  destruct (C8_stable_and_deterministic h text [1%nat; 0%nat])
    as (Ho & _ & Hd).
  split; [exact Hinj | split; [exact Hh | split]].
  - exact (Ho 0).
  - exact (Hd h' S Hinj Hh).
Defined.

Lemma C10_segment_tip_witness :
  let h := store_of [mkIssue spell 0 3 (Some "Spelling: 'the'."%string)] in
  let text := js "Teh cat was nice."%string in
  let s := mkSegment (js "Teh"%string) (kind spell)
                     (Some "Spelling: 'the'."%string) in
  In s (buildSegments h text [0%nat])
  /\ (exists pre post,
        sorted_markers h [0%nat] = (pre ++ post)%list /\
        emitted_at h text pre post s /\
        match governing pre with
        | Some r => In r [0%nat]
                    /\ seg_type s = kind (type (h r)) /\ seg_tip s = tip (h r)
        | None => seg_type s = plain /\ seg_tip s = None
        end)
  /\ (seg_type s = plain -> seg_tip s = None).
Proof.
  intros h text s.
  assert (Hs : In s (buildSegments h text [0%nat])) by (left; reflexivity).
  destruct (C10_segment_tip h text [0%nat] s Hs) as [Ha Hb].
  split; [exact Hs | split; [exact Ha | exact Hb]].
Defined.

(** ** Further properties of [buildSegments] *)

Lemma fold_step_segs_length h text ms : forall st,
  (length (segs (fold_left (step h text) ms st))
   <= length (segs st) + length ms)%nat.
Proof.
  induction ms as [|m ms IH]; intros st; cbn [fold_left length]; [lia|].
  specialize (IH (step h text st m)).
  assert (Hs : (length (segs (step h text st m)) <= length (segs st) + 1)%nat).
  { rewrite step_unfold. destruct (cursor st <? idx m); cbn [segs];
      rewrite ?length_app; cbn [length]; lia. }
  lia.
Qed.

Lemma markers_of_length h issues :
  length (markers_of h issues) = (2 * length issues)%nat.
Proof.
  induction issues as [|r l IH]; [reflexivity|].
  unfold markers_of in *. cbn [flat_map app length]. rewrite IH. lia.
Qed.

Lemma segments_length h text issues :
  (length (buildSegments h text issues) <= 2 * length issues + 1)%nat.
Proof.
  unfold buildSegments, finish, sweep.
  pose proof (fold_step_segs_length h text (sorted_markers h issues) init) as H.
  cbn [init segs length] in H.
  assert (Hl : length (sorted_markers h issues) = (2 * length issues)%nat).
  { rewrite <- markers_of_length with (h := h). symmetry.
    apply Permutation_length, js_sort_perm. }
  rewrite Hl in H.
  destruct (cursor _ <? str_length text); rewrite ?length_app; cbn [length]; lia.
Qed.

(** X1: [n] annotations give at most [2 n + 1] segments. *)
Theorem buildSegments_length h text issues :
  (length (buildSegments h text issues) <= 2 * length issues + 1)%nat.
Proof. apply segments_length. Qed.

Lemma no_element_nil {A} (l : list A) : (forall x, ~ In x l) -> l = [].
Proof. destruct l as [|x l]; [reflexivity|]. intros H. destruct (H x). now left. Qed.

Lemma top_none s : top s = None -> s = [].
Proof.
  unfold top. intros H. destruct (rev s) as [|x l] eqn:E; [|discriminate].
  apply (f_equal (@rev _)) in E. now rewrite rev_involutive in E.
Qed.

(** An annotation that is still open has no close marker among the
    processed markers that follow its open marker: when its range is not
    inverted, its close marker is still to come. *)
Lemma still_open_close_pending h issues pre post r :
  sorted_markers h issues = (pre ++ post)%list ->
  In r (still_open pre) ->
  start (h r) <= end_ (h r) ->
  In r issues /\ start (h r) <= cursor_after pre
  /\ In (mkMarker (end_ (h r)) r false) post.
Proof.
  intros He Hin Hse.
  destruct (still_open_split _ _ Hin) as (p1 & mo & p2 & -> & Ho & Hi & Hcl).
  pose proof (sorted_markers_sorted h issues) as S. rewrite He in S.
  assert (Hmo : In mo (sorted_markers h issues))
    by (rewrite He; apply in_or_app; left; apply in_or_app; right; now left).
  apply sorted_markers_in, markers_of_in in Hmo.
  rewrite Ho, Hi in Hmo. destruct Hmo as [Hrin Hidx].
  split; [exact Hrin|]. split.
  { rewrite <- Hidx. apply cursor_after_ge, in_or_app. right. now left. }
  set (mc := mkMarker (end_ (h r)) r false).
  assert (Hmc : In mc (sorted_markers h issues))
    by (apply sorted_markers_in; now apply markers_of_intro).
  rewrite He in Hmc. apply in_app_or in Hmc.
  destruct Hmc as [Hmc|Hmc]; [exfalso | exact Hmc].
  apply in_app_or in Hmc. destruct Hmc as [Hmc|[Hmc|Hmc]].
  - rewrite <- app_assoc in S. cbn [app] in S.
    apply (sorted_mid_r _ _ _ _ S) in Hmc.
    unfold rank_le, rank, mc in Hmc. rewrite Ho in Hmc.
    cbn [idx open] in Hmc. lia.
  - rewrite Hmc in Ho. discriminate.
  - rewrite (closed_later_in r p2 mc) in Hcl; trivial; discriminate.
Qed.

(** X2: when no annotation is inverted, no annotation is left open after
    the sweep, so the remainder of the text after the last marker is emitted
    as a plain segment without a tip. *)
Theorem buildSegments_remainder_plain h text issues :
  (forall r, In r issues -> start (h r) <= end_ (h r)) ->
  stack (sweep h text (sorted_markers h issues)) = []
  /\ buildSegments h text issues
     = (segs (sweep h text (sorted_markers h issues))
        ++ (if cursor_after (sorted_markers h issues) <? str_length text
            then [mkSegment (slice_from text (cursor_after (sorted_markers h issues)))
                            plain None]
            else []))%list.
Proof.
  intros Hse.
  assert (Hst : stack (sweep h text (sorted_markers h issues)) = []).
  { rewrite sweep_stack. apply no_element_nil. intros r Hin.
    assert (Hr : In r issues).
    { apply still_open_in in Hin. destruct Hin as (m & Hm & <- & _).
      now apply sorted_markers_in, markers_of_in in Hm. }
    assert (He : sorted_markers h issues = (sorted_markers h issues ++ [])%list)
      by now rewrite app_nil_r.
    destruct (still_open_close_pending h issues _ [] r He Hin (Hse r Hr))
      as (_ & _ & []). }
  split; [exact Hst|].
  unfold buildSegments, finish. rewrite Hst, sweep_cursor.
  destruct (cursor_after _ <? str_length text); [reflexivity | now rewrite app_nil_r].
Qed.

Lemma open_then_closed ms mo :
  In mo ms -> open mo = true -> ~ In (issue mo) (still_open ms) ->
  exists mc, In mc ms /\ open mc = false /\ issue mc = issue mo.
Proof.
  induction ms as [|m ms IH]; [contradiction|].
  cbn [still_open]. intros [->|Hin] Ho Hn.
  - rewrite Ho in Hn. cbn [andb] in Hn.
    destruct (closed_later (issue mo) ms) eqn:Hc; cbn [negb] in Hn.
    + apply existsb_exists in Hc. destruct Hc as (mc & Hmc & Hcl).
      unfold closes in Hcl. apply andb_prop in Hcl. destruct Hcl as [H1 H2].
      exists mc. split; [now right|].
      split; [now destruct (open mc) | now apply Nat.eqb_eq].
    + exfalso. apply Hn. now left.
  - destruct IH as (mc & Hmc & Hcl); trivial.
    + intros H. apply Hn.
      destruct (open m && negb (closed_later (issue m) ms)); [now right | trivial].
    + exists mc. split; [now right | trivial].
Qed.

(** X3: a segment governed by an annotation whose range is not inverted
    lies inside that range: every position of the segment is a position of
    the annotation. *)
Theorem governed_segment_inside h text issues s :
  In s (buildSegments h text issues) ->
  exists pre post,
    sorted_markers h issues = (pre ++ post)%list
    /\ emitted_at h text pre post s
    /\ forall r, governing pre = Some r -> start (h r) <= end_ (h r) ->
         seg_type s = kind (type (h r))
         /\ forall i, cursor_after pre <= i < emission_end text post ->
                      start (h r) <= i < end_ (h r).
Proof.
  intros Hs. apply in_buildSegments in Hs.
  destruct Hs as (pre & post & He & Hem). exists pre, post.
  split; [exact He|]. split; [exact Hem|].
  intros r Hg Hse. destruct Hem as (Hty & _ & _).
  rewrite Hg in Hty. split; [exact Hty|].
  destruct (still_open_close_pending h issues pre post r He (top_in _ _ Hg) Hse)
    as (_ & Hfrom & Hmc).
  intros i [Hi1 Hi2]. split; [lia|].
  pose proof (sorted_markers_sorted h issues) as S. rewrite He in S.
  destruct post as [|m post]; [contradiction|]. cbn [emission_end] in Hi2.
  destruct Hmc as [->|Hmc]; [cbn [idx] in Hi2; lia|].
  apply (sorted_mid_l _ _ _ _ S) in Hmc.
  unfold rank_le, rank in Hmc. cbn [idx open] in Hmc.
  destruct (open m); lia.
Qed.

(** X4: a segment emitted with no active annotation overlaps no annotation
    of the list: it is plain, and none of its positions is a position of an
    annotation. *)
Theorem plain_segment_uncovered h text issues s :
  In s (buildSegments h text issues) ->
  exists pre post,
    sorted_markers h issues = (pre ++ post)%list
    /\ emitted_at h text pre post s
    /\ (governing pre = None ->
        seg_type s = plain
        /\ forall r i, In r issues ->
             cursor_after pre <= i < emission_end text post ->
             ~ (start (h r) <= i < end_ (h r))).
Proof.
  intros Hs. apply in_buildSegments in Hs.
  destruct Hs as (pre & post & He & Hem). exists pre, post.
  split; [exact He|]. split; [exact Hem|].
  intros Hg. destruct Hem as (Hty & _ & _).
  rewrite Hg in Hty. split; [exact Hty|].
  intros r i Hr [Hi1 Hi2] [Hr1 Hr2].
  apply top_none in Hg.
  pose proof (sorted_markers_sorted h issues) as S. rewrite He in S.
  destruct (markers_of_intro h issues r Hr) as [Hzo _].
  apply sorted_markers_in in Hzo. rewrite He in Hzo.
  apply in_app_or in Hzo. destruct Hzo as [Hzo|Hzo].
  - destruct (open_then_closed pre _ Hzo eq_refl) as (mc & Hmc & Hco & Hci).
    { rewrite Hg. intros []. }
    cbn [issue] in Hci.
    assert (Hin : In mc (sorted_markers h issues))
      by (rewrite He; apply in_or_app; now left).
    apply sorted_markers_in, markers_of_in in Hin.
    rewrite Hco, Hci in Hin. destruct Hin as [_ Hidx].
    pose proof (cursor_after_ge pre mc Hmc). lia.
  - destruct post as [|m post]; [contradiction|]. cbn [emission_end] in Hi2.
    destruct Hzo as [->|Hzo]; [cbn [idx] in Hi2; lia|].
    apply (sorted_mid_l _ _ _ _ S) in Hzo.
    unfold rank_le, rank in Hzo. cbn [idx open] in Hzo.
    destruct (open m); lia.
Qed.

(** X5: one annotation [[s, e)] with [0 <= s < e] cuts the text in at most
    three segments: the plain text before [s] if any, the annotated text,
    and the plain text from [e] on if any. *)
Theorem buildSegments_single h text a :
  0 <= start (h a) < end_ (h a) ->
  buildSegments h text [a] =
  ((if 0 <? start (h a)
    then [mkSegment (slice text 0 (start (h a))) plain None] else [])
   ++ [mkSegment (slice text (start (h a)) (end_ (h a)))
                 (kind (type (h a))) (tip (h a))]
   ++ (if end_ (h a) <? str_length text
       then [mkSegment (slice_from text (end_ (h a))) plain None] else []))%list.
Proof.
  intros [Hs He]. rewrite buildSegments_emissions.
  assert (Hm : sorted_markers h [a]
               = [mkMarker (start (h a)) a true; mkMarker (end_ (h a)) a false]).
  { unfold sorted_markers, markers_of. cbn [flat_map app js_sort fold_right insert].
    unfold cmp. cbn [idx open].
    destruct (Z.eqb_spec (start (h a) - end_ (h a)) 0); [lia|].
    destruct (Z.ltb_spec 0 (start (h a) - end_ (h a))); [lia | reflexivity]. }
  rewrite Hm. cbn [emissions app]. unfold segment_at, governing, cursor_after.
  cbn [fold_left idx still_open open issue closed_later existsb closes negb andb orb].
  rewrite Nat.eqb_refl. cbn [negb andb orb top rev app active_type active_tip].
  replace (Z.max 0 (start (h a))) with (start (h a)) by lia.
  replace (Z.max (start (h a)) (end_ (h a))) with (end_ (h a)) by lia.
  destruct (Z.ltb_spec (start (h a)) (end_ (h a))); [|lia].
  destruct (0 <? start (h a)), (end_ (h a) <? str_length text); reflexivity.
Qed.

(** *** The order of the annotation list *)

Lemma step_swap_closes h text st c1 c2 :
  open c1 = false -> open c2 = false -> idx c1 = idx c2 ->
  step h text (step h text st c1) c2 = step h text (step h text st c2) c1.
Proof.
  intros H1 H2 Hi. rewrite !step_unfold. rewrite <- Hi.
  unfold apply_marker. rewrite H1, H2.
  destruct (cursor st <? idx c1) eqn:E; cbn [cursor segs stack];
    rewrite ?Z.ltb_irrefl, ?E; cbn [cursor segs stack];
    (apply state_eq; cbn [segs cursor stack]; trivial);
    rewrite !filter_filter; apply filter_ext; intros x; apply andb_comm.
Qed.

Lemma fold_move_front h text x A B : forall st,
  open x = false ->
  Forall (fun m => open m = false /\ idx m = idx x) A ->
  fold_left (step h text) (A ++ x :: B) st
  = fold_left (step h text) (x :: A ++ B) st.
Proof.
  induction A as [|a A IH]; intros st Hx HA; [reflexivity|].
  apply Forall_cons_iff in HA. destruct HA as [[Ha Hi] HA].
  cbn [app fold_left]. rewrite IH by trivial. cbn [fold_left].
  now rewrite step_swap_closes.
Qed.

Lemma copies_move_front {A} (x : A) l1 l2 :
  Forall (eq x) l1 -> (l1 ++ x :: l2 = x :: l1 ++ l2)%list.
Proof.
  induction 1 as [|a l Ha Hl IH]; [reflexivity|].
  subst a. cbn [app]. now rewrite IH.
Qed.

Lemma sorted_remove_mid {A} (R : A -> A -> Prop) l1 x l2 :
  StronglySorted R (l1 ++ x :: l2) -> StronglySorted R (l1 ++ l2).
Proof.
  induction l1 as [|a l1 IH]; cbn [app]; intros S;
    apply StronglySorted_inv in S; destruct S as [S Ha]; [exact S|].
  constructor; [now apply IH|].
  rewrite Forall_forall in *. intros y Hy. apply Ha.
  apply in_app_or in Hy. apply in_or_app.
  destruct Hy; [now left | right; now right].
Qed.

(** Two sorted arrangements of the same markers sweep to the same state,
    when markers of one rank that are open markers are one and the same. *)
Lemma sweep_sorted_perm h text L1 : forall L2 st,
  StronglySorted (rank_le rank) L1 -> StronglySorted (rank_le rank) L2 ->
  Permutation L1 L2 ->
  (forall a b, In a L1 -> In b L1 -> open a = true -> rank a = rank b -> a = b) ->
  fold_left (step h text) L1 st = fold_left (step h text) L2 st.
Proof.
  induction L1 as [|x L1 IH]; intros L2 st S1 S2 HP Hu.
  - apply Permutation_nil in HP. now subst.
  - assert (Hx : In x L2) by (apply (Permutation_in _ HP); now left).
    destruct (in_split _ _ Hx) as (A & B & ->).
    apply Permutation_cons_app_inv in HP.
    assert (HA : Forall (fun a => rank a = rank x) A).
    { apply Forall_forall. intros a Ha.
      assert (H1 : rank_le rank a x) by now apply (sorted_mid_r _ _ _ _ S2).
      assert (H2 : rank_le rank x a).
      { apply StronglySorted_inv in S1. destruct S1 as [_ Hall].
        rewrite Forall_forall in Hall. apply Hall.
        apply (Permutation_in _ (Permutation_sym HP)), in_or_app. now left. }
      unfold rank_le in *. lia. }
    assert (Hmove : fold_left (step h text) (A ++ x :: B) st
                    = fold_left (step h text) (x :: A ++ B) st).
    { destruct (open x) eqn:Ho.
      - rewrite copies_move_front; [reflexivity|].
        apply Forall_forall. intros a Ha. apply Hu; trivial; [now left | |].
        + right. apply (Permutation_in _ (Permutation_sym HP)), in_or_app. now left.
        + rewrite Forall_forall in HA. symmetry. now apply HA.
      - apply fold_move_front; trivial.
        eapply Forall_impl; [|exact HA]. intros a Ha.
        unfold rank in Ha. rewrite Ho in Ha. destruct (open a); split; trivial; lia. }
    rewrite Hmove. cbn [fold_left]. apply IH; trivial.
    + now apply StronglySorted_inv in S1.
    + now apply sorted_remove_mid in S2.
    + intros a b Ha Hb. apply Hu; now right.
Qed.

Example same_start_order_matters :
  let h := store_of [mkIssue grammar 0 5 None; mkIssue spell 0 5 None] in
  buildSegments h (js "hello"%string) [0%nat; 1%nat]
  = [mkSegment (js "hello"%string) (kind spell) None]
  /\ buildSegments h (js "hello"%string) [1%nat; 0%nat]
     = [mkSegment (js "hello"%string) (kind grammar) None].
Proof. split; reflexivity. Qed.

(** X6: the order of the annotation list does not matter when no two
    annotations of the list start at the same position. *)
Theorem buildSegments_permutation h text l l' :
  Permutation l l' ->
  (forall r1 r2, In r1 l -> In r2 l -> start (h r1) = start (h r2) -> r1 = r2) ->
  buildSegments h text l' = buildSegments h text l.
Proof.
  intros HP Hu. unfold buildSegments, sweep. f_equal. symmetry.
  apply sweep_sorted_perm; try apply sorted_markers_sorted.
  - unfold sorted_markers.
    rewrite <- (js_sort_perm cmp (markers_of h l)).
    rewrite <- (js_sort_perm cmp (markers_of h l')).
    unfold markers_of. now apply Permutation_flat_map.
  - intros a b Ha Hb Ho Hr.
    apply sorted_markers_in, markers_of_in in Ha, Hb.
    destruct Ha as [Ha Hia], Hb as [Hb Hib].
    assert (Hob : open b = true /\ idx a = idx b).
    { unfold rank in Hr. rewrite Ho in Hr. destruct (open b); split; trivial; lia. }
    destruct Hob as [Hob Hi]. rewrite Ho in Hia. rewrite Hob in Hib.
    assert (issue a = issue b) by (apply Hu; trivial; congruence).
    destruct a, b; cbn in *; congruence.
Qed.

(** ** The regular expression matcher *)

Lemma rx_match_plus a re prev rest :
  rx_match (Plus a :: re) prev rest =
  match rest with
  | c :: rest' =>
      if atom_test a c then
        match rx_match (Plus a :: re) (Some c) rest' with
        | Some n => Some (S n)
        | None => option_map S (rx_match re (Some c) rest')
        end
      else None
  | [] => None
  end.
Proof. destruct rest; reflexivity. Qed.

(** A match never runs past the end of the input. *)
Lemma rx_match_le re : forall prev rest n,
  rx_match re prev rest = Some n -> (n <= length rest)%nat.
Proof.
  induction re as [|nd re IH]; intros prev rest n.
  - cbn. intros H. injection H as <-. lia.
  - destruct nd as [a|a| |a].
    + cbn [rx_match]. destruct rest as [|c rest]; [discriminate|].
      destruct (atom_test a c); [|discriminate].
      destruct (rx_match re (Some c) rest) as [k|] eqn:E; [|discriminate].
      cbn. intros H. injection H as <-. apply IH in E. cbn [length]. lia.
    + revert prev n. induction rest as [|c rest IHr]; intros prev n;
        rewrite rx_match_plus; [discriminate|].
      destruct (atom_test a c); [|discriminate].
      destruct (rx_match (Plus a :: re) (Some c) rest) as [k|] eqn:E.
      * intros H. injection H as <-. apply IHr in E. cbn [length]. lia.
      * destruct (rx_match re (Some c) rest) as [k|] eqn:E'; [|discriminate].
        cbn. intros H. injection H as <-. apply IH in E'. cbn [length]. lia.
    + cbn [rx_match]. destruct (xorb _ _); [apply IH | discriminate].
    + cbn [rx_match]. destruct prev as [c|]; [|discriminate].
      destruct (atom_test a c); [apply IH | discriminate].
Qed.

Lemma last_cons_default {A} (x d : A) l : last (x :: l) d = last l x.
Proof.
  revert x d. induction l as [|y l IH]; intros x d; [reflexivity|].
  change (last (x :: y :: l) d) with (last (y :: l) d).
  now rewrite !IH.
Qed.

(** What a greedy repetition matches: a non-empty run of its atom, and
    then the rest of the expression. *)
Lemma rx_match_plus_inv a re : forall rest prev n,
  rx_match (Plus a :: re) prev rest = Some n ->
  exists c run rest' k,
    rest = (c :: run ++ rest')%list
    /\ forallb (atom_test a) (c :: run) = true
    /\ rx_match re (Some (last run c)) rest' = Some k
    /\ n = (S (length run) + k)%nat.
Proof.
  induction rest as [|c rest IH]; intros prev n; rewrite rx_match_plus;
    [discriminate|].
  destruct (atom_test a c) eqn:Hc; [|discriminate].
  destruct (rx_match (Plus a :: re) (Some c) rest) as [k|] eqn:E.
  - intros H. injection H as <-.
    destruct (IH _ _ E) as (c' & run & rest' & k' & -> & Hall & Hk & ->).
    exists c, (c' :: run), rest', k'.
    split; [reflexivity|]. split; [cbn [forallb] in *; now rewrite Hc|].
    split; [|cbn [length]; lia].
    rewrite last_cons_default. exact Hk.
  - destruct (rx_match re (Some c) rest) as [k|] eqn:E'; [|discriminate].
    cbn. intros H. injection H as <-.
    exists c, [], rest, k. repeat split; trivial.
    cbn [forallb]. now rewrite Hc.
Qed.

Lemma prev_after_cons prev c pre :
  prev_after prev (c :: pre) = prev_after (Some c) pre.
Proof.
  unfold prev_after. cbn [rev].
  destruct (rev pre) as [|x l]; reflexivity.
Qed.

(** The search returns the first index at which the expression matches. *)
Lemma rx_search_inv re : forall rest prev i index n,
  rx_search re prev rest i = Some (index, n) ->
  exists pre post,
    rest = (pre ++ post)%list /\ index = (i + length pre)%nat
    /\ rx_match re (prev_after prev pre) post = Some n.
Proof.
  induction rest as [|c rest IH]; intros prev i index n; cbn [rx_search].
  - destruct (rx_match re prev []) as [k|] eqn:E; [|discriminate].
    intros H. injection H as <- <-. exists [], []. cbn. repeat split; trivial; lia.
  - destruct (rx_match re prev (c :: rest)) as [k|] eqn:E.
    + intros H. injection H as <- <-. exists [], (c :: rest).
      cbn. repeat split; trivial; lia.
    + intros H. destruct (IH _ _ _ _ H) as (pre & post & -> & -> & Hm).
      exists (c :: pre), post. rewrite prev_after_cons. cbn [app length].
      repeat split; trivial; lia.
Qed.

Lemma str_match_inv re text index n :
  str_match re text = Some (index, n) ->
  exists pre post,
    text = (pre ++ post)%list /\ index = length pre
    /\ rx_match re (prev_after None pre) post = Some n.
Proof.
  intros H. apply rx_search_inv in H.
  destruct H as (pre & post & ? & ? & ?). now exists pre, post.
Qed.

Lemma letter_is_word l c :
  (97 <=? l)%N && (l <=? 122)%N = true ->
  atom_test (Letter l) c = true -> is_word c = true.
Proof.
  intros Hl H. cbn [atom_test] in H. unfold is_word.
  apply andb_prop in Hl. destruct Hl as [H1 H2].
  apply N.leb_le in H1, H2.
  apply orb_prop in H. destruct H as [H|H]; apply N.eqb_eq in H; subst c.
  - replace (97 <=? l)%N with true by (symmetry; now apply N.leb_le).
    replace (l <=? 122)%N with true by (symmetry; now apply N.leb_le).
    cbn [andb]. now rewrite orb_true_r.
  - replace (65 <=? l - 32)%N with true by (symmetry; apply N.leb_le; lia).
    replace (l - 32 <=? 90)%N with true by (symmetry; apply N.leb_le; lia).
    reflexivity.
Qed.

(** What [/\bteh\b/i] matches: the three letters, as a whole word. *)
Lemma match_teh prev rest n :
  rx_match re_teh prev rest = Some n ->
  exists c1 c2 c3 rest',
    rest = c1 :: c2 :: c3 :: rest' /\ n = 3%nat
    /\ atom_test (Letter 116%N) c1 = true
    /\ atom_test (Letter 101%N) c2 = true
    /\ atom_test (Letter 104%N) c3 = true
    /\ is_word_opt prev = false
    /\ is_word_opt (hd_error rest') = false.
Proof.
  unfold re_teh. cbn [rx_match].
  destruct (xorb (is_word_opt prev) (is_word_opt (hd_error rest))) eqn:Hb;
    [|discriminate].
  destruct rest as [|c1 rest]; [discriminate|].
  destruct (atom_test (Letter 116%N) c1) eqn:H1; [|discriminate].
  destruct rest as [|c2 rest]; [discriminate|].
  destruct (atom_test (Letter 101%N) c2) eqn:H2; [|discriminate].
  destruct rest as [|c3 rest]; [discriminate|].
  destruct (atom_test (Letter 104%N) c3) eqn:H3; [|discriminate].
  cbn [hd_error is_word_opt].
  rewrite (letter_is_word 104%N c3 eq_refl H3). cbn [xorb].
  destruct (is_word_opt (hd_error rest)) eqn:Hw; [discriminate|].
  cbn [negb option_map]. intros H. injection H as <-.
  exists c1, c2, c3, rest. repeat split; trivial.
  cbn [hd_error is_word_opt] in Hb.
  rewrite (letter_is_word 116%N c1 eq_refl H1) in Hb.
  now destruct (is_word_opt prev).
Qed.

(** What [/\bi\s+was\b/i] matches: the word [i], white space, the word
    [was]. *)
Lemma match_i_was prev rest n :
  rx_match re_i_was prev rest = Some n ->
  exists ci sp ws cw ca cs rest',
    rest = (ci :: (sp :: ws) ++ cw :: ca :: cs :: rest')%list
    /\ n = (length (sp :: ws) + 4)%nat
    /\ atom_test (Letter 105%N) ci = true
    /\ forallb is_space (sp :: ws) = true
    /\ atom_test (Letter 119%N) cw = true
    /\ atom_test (Letter 97%N) ca = true
    /\ atom_test (Letter 115%N) cs = true
    /\ is_word_opt prev = false
    /\ is_word_opt (hd_error rest') = false.
Proof.
  unfold re_i_was. cbn [rx_match].
  destruct (xorb (is_word_opt prev) (is_word_opt (hd_error rest))) eqn:Hb;
    [|discriminate].
  destruct rest as [|ci rest]; [discriminate|].
  destruct (atom_test (Letter 105%N) ci) eqn:Hi; [|discriminate].
  change ((fix more (prev0 : option code_unit) (rest0 : jsstring) {struct rest0} :
             option nat := _) (Some ci) rest)
    with (rx_match (Plus Space :: [One (Letter 119%N); One (Letter 97%N);
                                   One (Letter 115%N); Boundary]) (Some ci) rest).
  destruct (rx_match _ (Some ci) rest) as [k|] eqn:E; [|discriminate].
  cbn [option_map]. intros H. injection H as <-.
  apply rx_match_plus_inv in E.
  destruct E as (sp & ws & rest' & k' & -> & Hall & Hk & ->).
  cbn [rx_match] in Hk.
  destruct rest' as [|cw rest']; [discriminate|].
  destruct (atom_test (Letter 119%N) cw) eqn:Hw; [|discriminate].
  destruct rest' as [|ca rest']; [discriminate|].
  destruct (atom_test (Letter 97%N) ca) eqn:Ha; [|discriminate].
  destruct rest' as [|cs rest']; [discriminate|].
  destruct (atom_test (Letter 115%N) cs) eqn:Hs; [|discriminate].
  cbn [hd_error is_word_opt] in Hk.
  rewrite (letter_is_word 115%N cs eq_refl Hs) in Hk. cbn [xorb] in Hk.
  destruct (is_word_opt (hd_error rest')) eqn:Hw'; [discriminate|].
  cbn [negb option_map] in Hk. injection Hk as <-.
  exists ci, sp, ws, cw, ca, cs, rest'.
  split; [reflexivity|]. split; [cbn [length]; lia|].
  repeat split; trivial.
  cbn [hd_error is_word_opt] in Hb.
  rewrite (letter_is_word 105%N ci eq_refl Hi) in Hb.
  now destruct (is_word_opt prev).
Qed.

(** ** mockEvaluate *)

Lemma mock_clarity_branch text :
  (Z.max 0 (indexOf text 46%N) =? -1) && (0 <? str_length text) = false.
Proof. destruct (Z.eqb_spec (Z.max 0 (indexOf text 46%N)) (-1)); [lia | reflexivity]. Qed.

Lemma mock_issues_inv text i :
  In i (issues (mockEvaluate text)) ->
  (exists index n,
     str_match re_i_was text = Some (index, n) /\ type i = grammar
     /\ start i = Z.of_nat index /\ end_ i = Z.of_nat index + Z.of_nat n)
  \/ (exists index n,
        str_match re_teh text = Some (index, n) /\ type i = spell
        /\ start i = Z.of_nat index /\ end_ i = Z.of_nat index + Z.of_nat n).
Proof.
  unfold mockEvaluate. cbn [issues]. rewrite mock_clarity_branch.
  unfold rx_test.
  destruct (str_match re_i_was text) as [[i1 n1]|];
    destruct (str_match re_teh text) as [[i2 n2]|]; cbn [app In];
    intros H; repeat destruct H as [H|H]; try contradiction; subst i;
    [left | right | left | right]; eexists; eexists; repeat split.
Qed.

Lemma mockEvaluate_kinds_list text :
  let ks := map type (issues (mockEvaluate text)) in
  ks = [] \/ ks = [grammar] \/ ks = [spell] \/ ks = [grammar; spell].
Proof.
  unfold mockEvaluate. cbn [issues]. rewrite mock_clarity_branch.
  unfold rx_test.
  destruct (str_match re_i_was text) as [[i1 n1]|];
    destruct (str_match re_teh text) as [[i2 n2]|]; cbn; auto.
Qed.

(** X7: the demo evaluator returns at most a grammar issue followed by at
    most a spell issue.  It never returns a clarity issue: the position of
    the first period is raised to 0 before it is compared with -1. *)
Theorem mockEvaluate_issue_kinds text :
  map type (issues (mockEvaluate text))
  = ((if rx_test re_i_was text then [grammar] else [])
     ++ (if rx_test re_teh text then [spell] else []))%list
  /\ Forall (fun i => type i <> clarity /\ type i <> structure)
            (issues (mockEvaluate text)).
Proof.
  split.
  - unfold mockEvaluate. cbn [issues]. rewrite mock_clarity_branch.
    unfold rx_test.
    destruct (str_match re_i_was text) as [[i1 n1]|];
      destruct (str_match re_teh text) as [[i2 n2]|]; reflexivity.
  - apply Forall_forall. intros i Hi. apply mock_issues_inv in Hi.
    destruct Hi as [(? & ? & _ & Ht & _)|(? & ? & _ & Ht & _)];
      rewrite Ht; split; discriminate.
Qed.

Lemma mock_spans_in_range text i :
  In i (issues (mockEvaluate text)) ->
  0 <= start i < end_ i /\ end_ i <= str_length text.
Proof.
  intros Hi. apply mock_issues_inv in Hi.
  destruct Hi as [(index & n & Hm & _ & -> & ->)|(index & n & Hm & _ & -> & ->)];
    apply str_match_inv in Hm; destruct Hm as (pre & post & -> & -> & Hm);
    pose proof (rx_match_le _ _ _ _ Hm) as Hle;
    unfold str_length; rewrite length_app.
  - apply match_i_was in Hm. destruct Hm as (? & ? & ? & ? & ? & ? & ? & _ & -> & _).
    cbn [length] in *. lia.
  - apply match_teh in Hm. destruct Hm as (? & ? & ? & ? & _ & -> & _).
    lia.
Qed.

(** X8: every span the demo evaluator returns is a non-empty range inside
    the text. *)
Theorem mockEvaluate_spans_in_range text i :
  In i (issues (mockEvaluate text)) ->
  0 <= start i < end_ i /\ end_ i <= str_length text.
Proof. apply mock_spans_in_range. Qed.

(** X9: the spell span of the demo evaluator covers exactly a whole word
    [teh], in any letter case. *)
Theorem mockEvaluate_spell_span text i :
  In i (issues (mockEvaluate text)) -> type i = spell ->
  exists pre c1 c2 c3 post,
    text = (pre ++ [c1; c2; c3] ++ post)%list
    /\ start i = Z.of_nat (length pre) /\ end_ i = start i + 3
    /\ (c1 = 116 \/ c1 = 84)%N /\ (c2 = 101 \/ c2 = 69)%N
    /\ (c3 = 104 \/ c3 = 72)%N
    /\ is_word_opt (prev_after None pre) = false
    /\ is_word_opt (hd_error post) = false.
Proof.
  intros Hi Ht. apply mock_issues_inv in Hi.
  destruct Hi as [(? & ? & _ & Hg & _)|(index & n & Hm & _ & Hs & He)];
    [rewrite Hg in Ht; discriminate|].
  apply str_match_inv in Hm. destruct Hm as (pre & post & -> & -> & Hm).
  apply match_teh in Hm.
  destruct Hm as (c1 & c2 & c3 & rest & -> & -> & H1 & H2 & H3 & Hp & Hn).
  exists pre, c1, c2, c3, rest.
  split; [reflexivity|]. split; [exact Hs|]. split; [rewrite He, Hs; lia|].
  cbn [atom_test] in H1, H2, H3.
  apply orb_prop in H1, H2, H3.
  repeat split; trivial;
    match goal with
    | H : (?c =? _)%N = true \/ _ |- ?c = _ \/ _ =>
        destruct H as [H|H]; apply N.eqb_eq in H; [left | right]; exact H
    end.
Qed.

(** X10: the grammar span of the demo evaluator covers exactly a whole word
    [i], white space and a whole word [was], in any letter case. *)
Theorem mockEvaluate_grammar_span text i :
  In i (issues (mockEvaluate text)) -> type i = grammar ->
  exists pre ci ws cw ca cs post,
    text = (pre ++ (ci :: ws ++ [cw; ca; cs]) ++ post)%list
    /\ start i = Z.of_nat (length pre)
    /\ end_ i = start i + Z.of_nat (length ws) + 4
    /\ ws <> [] /\ forallb is_space ws = true
    /\ (ci = 105 \/ ci = 73)%N /\ (cw = 119 \/ cw = 87)%N
    /\ (ca = 97 \/ ca = 65)%N /\ (cs = 115 \/ cs = 83)%N
    /\ is_word_opt (prev_after None pre) = false
    /\ is_word_opt (hd_error post) = false.
Proof.
  intros Hi Ht. apply mock_issues_inv in Hi.
  destruct Hi as [(index & n & Hm & _ & Hs & He)|(? & ? & _ & Hg & _)];
    [|rewrite Hg in Ht; discriminate].
  apply str_match_inv in Hm. destruct Hm as (pre & post & -> & -> & Hm).
  apply match_i_was in Hm.
  destruct Hm as (ci & sp & ws & cw & ca & cs & rest & -> & -> & Hci & Hall
                  & Hcw & Hca & Hcs & Hp & Hn).
  exists pre, ci, (sp :: ws), cw, ca, cs, rest.
  split; [cbn [app]; now rewrite <- app_assoc|]. split; [exact Hs|].
  split; [rewrite He, Hs; cbn [length]; lia|]. split; [discriminate|]. split; [exact Hall|].
  cbn [atom_test] in Hci, Hcw, Hca, Hcs.
  apply orb_prop in Hci, Hcw, Hca, Hcs.
  repeat split; trivial;
    match goal with
    | H : (?c =? _)%N = true \/ _ |- ?c = _ \/ _ =>
        destruct H as [H|H]; apply N.eqb_eq in H; [left | right]; exact H
    end.
Qed.

Lemma split_after_stop_first rest : forall c p,
  exists tl,
    split_loop re_after_stop (Some c) rest (c :: p) 0
    = (rev (c :: p)
       ++ (if atom_test (OneOf [46; 33; 63]%N) c then [] else upto_stop rest))%list
      :: tl.
Proof.
  induction rest as [|d rest IH]; intros c p.
  - exists []. cbn [split_loop upto_stop].
    destruct (atom_test _ c); now rewrite app_nil_r.
  - cbn [split_loop re_after_stop rx_match upto_stop].
    destruct (atom_test (OneOf [46; 33; 63]%N) c) eqn:Hc.
    + eexists. now rewrite app_nil_r.
    + destruct (IH d (c :: p)) as (tl & ->). exists tl. f_equal.
      cbn [rev]. rewrite <- !app_assoc. cbn [app].
      now destruct (atom_test (OneOf [46; 33; 63]%N) d).
Qed.

(** X11: the sentence the demo evaluator quotes as [example.before] is the
    text up to and including its first [.], [!] or [?] (the whole text when
    it has none), and a fixed sentence when the text is empty; it is never
    empty. *)
Theorem mockEvaluate_example_before text :
  exists e,
    example (mockEvaluate text) = Some e
    /\ before e = match text with
                  | [] => js "today i was tired but i study"%string
                  | _ :: _ => upto_stop text
                  end
    /\ before e <> [].
Proof.
  eexists. split; [reflexivity|]. cbn [before].
  destruct text as [|c rest].
  - cbn [str_split re_after_stop rx_match]. split; [reflexivity | discriminate].
  - cbn [str_split split_loop re_after_stop rx_match].
    destruct (split_after_stop_first rest c []) as (tl & ->).
    cbn [rev app upto_stop].
    destruct (atom_test (OneOf [46; 33; 63]%N) c); split; trivial; discriminate.
Qed.

(** ** OriginalPreview *)

Lemma segments_spell_text h text issues :
  seg_texts (buildSegments h text issues) = text.
Proof.
  unfold buildSegments. apply covers_finish.
  apply sweep_inv; [apply covers_init | intros; now apply covers_step].
Qed.

Lemma segments_nonempty h text issues s :
  (forall r, In r issues ->
     start (h r) <= str_length text /\ end_ (h r) <= str_length text) ->
  In s (buildSegments h text issues) -> seg_text s <> [].
Proof.
  intros Hr H. apply in_buildSegments in H.
  destruct H as (pre & post & He & _ & _ & Hs).
  pose proof (cursor_after_nonneg pre) as H0.
  destruct post as [|m post]; destruct Hs as [Hlt ->].
  - unfold slice_from. apply slice_nonempty; lia.
  - apply slice_nonempty; trivial.
    assert (Hm : In m (sorted_markers h issues))
      by (rewrite He; apply in_or_app; right; now left).
    apply sorted_markers_in, markers_of_in in Hm. destruct Hm as [Hin Hidx].
    specialize (Hr _ Hin). destruct (open m); lia.
Qed.

(** X12: for a non-empty text the preview is a list of spans whose texts,
    in order, are the text unchanged, whatever the annotations and the
    mode; for the empty text it is the placeholder. *)
Theorem OriginalPreview_shows_text h text issues mode :
  match text with
  | [] => OriginalPreview h text issues mode = Placeholder
  | _ :: _ =>
      exists l, OriginalPreview h text issues mode = Spans l
                /\ concat (map span_text l) = text
                /\ (length l <= 2 * length issues + 1)%nat
  end.
Proof.
  destruct text as [|c text]; [reflexivity|].
  eexists. split; [reflexivity|]. split.
  - rewrite map_map. cbn [render_segment span_text].
    apply (segments_spell_text h (c :: text) issues).
  - rewrite length_map. apply segments_length.
Qed.

Lemma store_of_refs l r : In r (refs_of l) -> In (store_of l r) l.
Proof.
  unfold refs_of, store_of. rewrite in_seq. intros [_ H].
  apply nth_In. cbn in H. lia.
Qed.

(** X13: the preview of the demo feedback.  For a non-empty text, the
    spans built from the issues of [mockEvaluate] spell the text, none of
    them is empty, there are at most five, and each is plain or carries the
    class of a spell or grammar issue. *)
Theorem demo_preview text mode :
  text <> [] ->
  let r := mockEvaluate text in
  exists l,
    OriginalPreview (store_of (issues r)) text (refs_of (issues r)) mode = Spans l
    /\ concat (map span_text l) = text
    /\ Forall (fun sp => span_text sp <> []) l
    /\ (length l <= 5)%nat
    /\ Forall (fun sp => span_class sp = segment_class plain
                         \/ span_class sp = segment_class (kind spell)
                         \/ span_class sp = segment_class (kind grammar)) l.
Proof.
  intros Ht r. destruct text as [|c text]; [congruence|].
  set (txt := c :: text) in *.
  exists (map render_segment
              (buildSegments (store_of (issues r)) txt (refs_of (issues r)))).
  split; [reflexivity|]. split; [|split; [|split]].
  - rewrite map_map. cbn [render_segment span_text]. apply segments_spell_text.
  - apply Forall_forall. intros sp Hsp. apply in_map_iff in Hsp.
    destruct Hsp as (s & <- & Hs). cbn [render_segment span_text].
    apply (segments_nonempty _ _ _ _ ) in Hs; trivial.
    intros x Hx. apply store_of_refs, mock_spans_in_range in Hx. lia.
  - rewrite length_map.
    pose proof (segments_length (store_of (issues r)) txt (refs_of (issues r))) as H.
    assert (Hn : (length (refs_of (issues r)) <= 2)%nat).
    { unfold refs_of. rewrite length_seq.
      rewrite <- (length_map type). unfold r.
      destruct (mockEvaluate_kinds_list txt) as [-> | [-> | [-> | ->]]]; cbn; lia. }
    lia.
  - apply Forall_forall. intros sp Hsp. apply in_map_iff in Hsp.
    destruct Hsp as (s & <- & Hs). cbn [render_segment span_class].
    apply in_buildSegments in Hs. destruct Hs as (pre & post & He & -> & _).
    destruct (governing pre) as [x|] eqn:Hg; [|now left].
    cbn [active_type]. apply governing_in with (h := store_of (issues r))
      (issues := refs_of (issues r)) (post := post) in Hg; trivial.
    apply store_of_refs, mock_issues_inv in Hg.
    destruct Hg as [(? & ? & _ & -> & _)|(? & ? & _ & -> & _)]; auto.
Qed.

(** ** sentenceCount *)

Lemma spaces_match_inv prev rest n :
  rx_match re_spaces prev rest = Some n ->
  exists c run rest',
    rest = (c :: run ++ rest')%list /\ forallb is_space (c :: run) = true
    /\ n = S (length run).
Proof.
  intros H. apply rx_match_plus_inv in H.
  destruct H as (c & run & rest' & k & -> & Hall & Hk & ->).
  cbn in Hk. injection Hk as <-. exists c, run, rest'.
  repeat split; trivial. lia.
Qed.

Lemma sentence_end_match_inv prev rest n :
  rx_match re_sentence_end prev rest = Some n ->
  exists c run d run2 rest',
    rest = (c :: run ++ d :: run2 ++ rest')%list
    /\ atom_test (OneOf [46; 33; 63]%N) c = true
    /\ forallb is_space (d :: run2) = true
    /\ n = (S (length run) + S (length run2))%nat.
Proof.
  intros H. apply rx_match_plus_inv in H.
  destruct H as (c & run & rest1 & k & -> & Hall & Hk & ->).
  apply spaces_match_inv in Hk.
  destruct Hk as (d & run2 & rest' & -> & Hsp & ->).
  exists c, run, d, run2, rest'. repeat split; trivial.
  cbn [forallb] in Hall. now apply andb_prop in Hall.
Qed.

Lemma last_app_cons {A} (l1 : list A) x l2 d :
  last (l1 ++ x :: l2) d = last (x :: l2) d.
Proof.
  induction l1 as [|a l1 IH]; [reflexivity|].
  cbn [app]. rewrite <- IH.
  destruct (l1 ++ x :: l2) eqn:E; [|reflexivity].
  now destruct l1.
Qed.

Lemma forallb_last {A} (f : A -> bool) l x d :
  forallb f (x :: l) = true -> f (last (x :: l) d) = true.
Proof.
  revert x. induction l as [|y l IH]; intros x H.
  - cbn in *. now rewrite andb_true_r in H.
  - change (last (x :: y :: l) d) with (last (y :: l) d). apply IH.
    cbn [forallb] in H. now apply andb_prop in H.
Qed.

(** A sentence end that reaches the end of the input ends the input with
    white space. *)
Lemma sentence_end_match_whole prev rest n :
  rx_match re_sentence_end prev rest = Some n -> n = length rest ->
  is_space (last rest 0%N) = true.
Proof.
  intros H Hn. apply sentence_end_match_inv in H.
  destruct H as (c & run & d & run2 & rest' & -> & _ & Hsp & ->).
  assert (rest' = []) as ->.
  { cbn [length] in Hn. rewrite !length_app in Hn. cbn [length] in Hn.
    rewrite length_app in Hn. destruct rest'; [reflexivity | cbn in Hn; lia]. }
  rewrite app_nil_r.
  change (c :: run ++ d :: run2)%list with ((c :: run) ++ d :: run2)%list.
  rewrite last_app_cons. now apply forallb_last.
Qed.

Lemma filter_truthy_head l :
  match filter truthy l with
  | first :: _ => negb (truthy first)
  | [] => false
  end = false.
Proof.
  destruct (filter truthy l) as [|x t] eqn:E; [reflexivity|].
  assert (H : In x (filter truthy l)) by (rewrite E; now left).
  apply filter_In in H. destruct H as [_ ->]. reflexivity.
Qed.

(** The special case of [sentenceCount] never applies. *)
Lemma sentenceCount_eq text :
  sentenceCount text
  = length (filter truthy
              (str_split re_sentence_end
                 (trim (str_replace_all re_spaces (js " "%string) text)))).
Proof.
  unfold sentenceCount. cbv zeta.
  now rewrite filter_truthy_head, andb_false_r.
Qed.

Lemma split_loop_last rest : forall prev piece skip,
  rest <> [] -> is_space (last rest 0%N) = false ->
  (skip < length rest)%nat ->
  exists pieces lastp,
    split_loop re_sentence_end prev rest piece skip = (pieces ++ [lastp])%list
    /\ lastp <> [].
Proof.
  induction rest as [|c rest IH]; intros prev piece skip Hne Hlast Hskip;
    [congruence|].
  destruct rest as [|c' rest'].
  - (* the last code unit *)
    cbn [length] in Hskip. assert (skip = 0)%nat as -> by lia.
    cbn [split_loop].
    destruct (rx_match re_sentence_end prev [c]) as [n|] eqn:E.
    + exfalso. pose proof (rx_match_le _ _ _ _ E) as Hle.
      apply sentence_end_match_inv in E.
      destruct E as (? & ? & ? & ? & ? & _ & _ & _ & ->). cbn in Hle. lia.
    + exists [], (rev (c :: piece)). split; [reflexivity|].
      cbn [rev]. intros H. apply app_eq_nil in H. destruct H; discriminate.
  - assert (Hlast' : is_space (last (c' :: rest') 0%N) = false) by exact Hlast.
    assert (Hrec : forall prev' piece' skip',
               (skip' < length (c' :: rest'))%nat ->
               forall front,
               exists pieces lastp,
                 (front ++ split_loop re_sentence_end prev' (c' :: rest') piece' skip'
                  = pieces ++ [lastp])%list /\ lastp <> []).
    { intros prev' piece' skip' Hs front.
      destruct (IH prev' piece' skip') as (pieces & lastp & -> & Hl);
        trivial; [discriminate|].
      exists (front ++ pieces)%list, lastp. now rewrite app_assoc. }
    assert (Hlen : forall k, (S k < length (c :: c' :: rest'))%nat ->
                             (k < length (c' :: rest'))%nat)
      by (intros k; cbn [length]; lia).
    assert (H0 : (0 < length (c' :: rest'))%nat) by (cbn [length]; lia).
    cbn [split_loop]. destruct skip as [|k].
    + destruct (rx_match re_sentence_end prev (c :: c' :: rest')) as [n|] eqn:E.
      * assert (Hn : (n < length (c :: c' :: rest'))%nat).
        { pose proof (rx_match_le _ _ _ _ E) as Hle.
          destruct (Nat.eq_dec n (length (c :: c' :: rest'))) as [Heq|];
            [|unfold code_unit in *; lia].
          apply (sentence_end_match_whole _ _ _ E) in Heq.
          destruct (eq_true_false_abs _ Heq Hlast). }
        destruct n as [|k].
        -- destruct piece as [|x piece].
           ++ exact (Hrec (Some c) [c] 0%nat H0 []).
           ++ exact (Hrec (Some c) [c] 0%nat H0 [rev (x :: piece)]).
        -- exact (Hrec (Some c) [] k (Hlen k Hn) [rev piece]).
      * exact (Hrec (Some c) (c :: piece) 0%nat H0 []).
    + exact (Hrec (Some c) [] k (Hlen k Hskip) []).
Qed.

Lemma drop_spaces_blank s : forallb is_space s = true -> drop_spaces s = [].
Proof.
  induction s as [|c s IH]; [reflexivity|]. cbn [forallb drop_spaces].
  intros H. apply andb_prop in H. destruct H as [-> H]. now apply IH.
Qed.

Lemma drop_spaces_nonblank s x :
  In x s -> is_space x = false ->
  exists y t, drop_spaces s = y :: t /\ is_space y = false.
Proof.
  induction s as [|c s IH]; [contradiction|]. cbn [drop_spaces].
  intros Hin Hx. destruct (is_space c) eqn:Hc.
  - destruct Hin as [->|Hin]; [congruence | now apply IH].
  - now exists c, s.
Qed.

Lemma trim_blank s : forallb is_space s = true -> trim s = [].
Proof. intros H. unfold trim. now rewrite (drop_spaces_blank s H). Qed.

Lemma trim_nonblank s x :
  In x s -> is_space x = false ->
  trim s <> [] /\ is_space (last (trim s) 0%N) = false.
Proof.
  intros Hin Hx. unfold trim.
  destruct (drop_spaces_nonblank s x Hin Hx) as (y & t & -> & Hy).
  destruct (drop_spaces_nonblank (rev (y :: t)) y) as (z & u & -> & Hz); trivial.
  { apply -> in_rev. now left. }
  cbn [rev]. split.
  - intros H. apply app_eq_nil in H. destruct H; discriminate.
  - now rewrite last_last.
Qed.

Lemma replace_spaces_blank rest : forall prev skip,
  forallb is_space rest = true ->
  forallb is_space (replace_loop re_spaces (js " "%string) prev rest skip) = true.
Proof.
  induction rest as [|c rest IH]; intros prev skip H.
  - cbn [replace_loop]. destruct skip; [|reflexivity].
    now destruct (rx_match re_spaces prev []).
  - cbn [forallb] in H. apply andb_prop in H. destruct H as [Hc H].
    cbn [replace_loop]. destruct skip as [|k]; [|now apply IH].
    destruct (rx_match re_spaces prev (c :: rest)) as [[|k]|].
    + change (js " "%string) with [32%N] at 1. cbn [app forallb].
      rewrite Hc. cbn. now apply IH.
    + change (js " "%string) with [32%N] at 1. cbn [app forallb].
      cbn. now apply IH.
    + cbn [forallb]. rewrite Hc. now apply IH.
Qed.

Lemma replace_spaces_keeps x rest : forall prev skip,
  forallb is_space (firstn skip rest) = true ->
  In x rest -> is_space x = false ->
  In x (replace_loop re_spaces (js " "%string) prev rest skip).
Proof.
  induction rest as [|c rest IH]; intros prev skip Hskip Hin Hx; [contradiction|].
  cbn [replace_loop]. destruct skip as [|k].
  - destruct (rx_match re_spaces prev (c :: rest)) as [[|k]|] eqn:E.
    + apply in_or_app. right. destruct Hin as [->|Hin]; [now left | right].
      now apply IH.
    + apply spaces_match_inv in E.
      destruct E as (c0 & run & rest' & Heq & Hall & Hk).
      injection Heq as <- ->. injection Hk as ->.
      cbn [forallb] in Hall. apply andb_prop in Hall. destruct Hall as [Hc Hrun].
      apply in_or_app. right. apply IH; trivial.
      * now rewrite firstn_app, firstn_all, Nat.sub_diag, app_nil_r.
      * destruct Hin as [->|Hin]; [congruence | exact Hin].
    + destruct Hin as [->|Hin]; [now left | right]. now apply IH.
  - cbn [firstn forallb] in Hskip. apply andb_prop in Hskip.
    destruct Hskip as [Hc Hk].
    apply IH; trivial. destruct Hin as [->|Hin]; [congruence | exact Hin].
Qed.

Lemma forallb_false_witness {A} (f : A -> bool) l :
  forallb f l = false -> exists x, In x l /\ f x = false.
Proof.
  induction l as [|a l IH]; [discriminate|]. cbn [forallb].
  destruct (f a) eqn:Ha; cbn [andb]; intros H.
  - destruct (IH H) as (x & ? & ?). exists x. split; [now right | trivial].
  - exists a. split; [now left | trivial].
Qed.

(** X14: the sentence count is 0 exactly for a blank text (empty or white
    space only); every other text counts at least one sentence. *)
Theorem sentenceCount_zero_iff_blank text :
  sentenceCount text = 0%nat <-> forallb is_space text = true.
Proof.
  rewrite sentenceCount_eq. split.
  - intros H0. destruct (forallb is_space text) eqn:Hb; [reflexivity|exfalso].
    apply forallb_false_witness in Hb. destruct Hb as (x & Hin & Hx).
    assert (Hr : In x (str_replace_all re_spaces (js " "%string) text))
      by (apply replace_spaces_keeps; trivial).
    destruct (trim_nonblank _ x Hr Hx) as [Hne Hlast].
    destruct (trim (str_replace_all re_spaces (js " "%string) text))
      as [|c T] eqn:ET; [congruence|].
    cbn [str_split] in H0.
    destruct (split_loop_last (c :: T) None [] 0%nat) as (pieces & lastp & Hs & Hl);
      trivial; [cbn [length]; lia|].
    rewrite Hs, filter_app, length_app in H0. cbn [filter] in H0.
    destruct lastp; [congruence|]. cbn in H0. lia.
  - intros Hb. unfold str_replace_all.
    rewrite trim_blank by now apply replace_spaces_blank.
    reflexivity.
Qed.

Lemma count_stops_cons c s :
  count_stops (c :: s)
  = ((if atom_test (OneOf [46; 33; 63]%N) c then 1 else 0) + count_stops s)%nat.
Proof. unfold count_stops. cbn [filter]. now destruct (atom_test _ c). Qed.

Lemma count_stops_app s1 s2 :
  count_stops (s1 ++ s2) = (count_stops s1 + count_stops s2)%nat.
Proof. unfold count_stops. now rewrite filter_app, length_app. Qed.

Lemma count_stops_rev s : count_stops (rev s) = count_stops s.
Proof.
  induction s as [|c s IH]; [reflexivity|].
  cbn [rev]. rewrite count_stops_app, IH, !count_stops_cons.
  change (count_stops []) with 0%nat. lia.
Qed.

Lemma count_stops_drop_spaces s : (count_stops (drop_spaces s) <= count_stops s)%nat.
Proof.
  induction s as [|c s IH]; [reflexivity|]. cbn [drop_spaces].
  destruct (is_space c); [|reflexivity]. rewrite count_stops_cons. lia.
Qed.

Lemma count_stops_trim s : (count_stops (trim s) <= count_stops s)%nat.
Proof.
  unfold trim. rewrite count_stops_rev.
  etransitivity; [apply count_stops_drop_spaces|].
  rewrite count_stops_rev. apply count_stops_drop_spaces.
Qed.

Lemma count_stops_replace rest : forall prev skip,
  (count_stops (replace_loop re_spaces (js " "%string) prev rest skip)
   <= count_stops rest)%nat.
Proof.
  induction rest as [|c rest IH]; intros prev skip.
  - cbn [replace_loop]. destruct skip; [|reflexivity].
    destruct (rx_match re_spaces prev []); cbn; lia.
  - cbn [replace_loop]. rewrite (count_stops_cons c rest).
    destruct skip as [|k]; [|specialize (IH (Some c) k); lia].
    destruct (rx_match re_spaces prev (c :: rest)) as [[|k]|].
    + rewrite count_stops_app, count_stops_cons.
      change (count_stops (js " "%string)) with 0%nat.
      specialize (IH (Some c) 0%nat). lia.
    + rewrite count_stops_app.
      change (count_stops (js " "%string)) with 0%nat.
      specialize (IH (Some c) k). lia.
    + rewrite count_stops_cons. specialize (IH (Some c) 0%nat). lia.
Qed.

Lemma split_loop_length rest : forall prev piece skip,
  (length (split_loop re_sentence_end prev rest piece skip)
   <= S (count_stops rest))%nat.
Proof.
  induction rest as [|c rest IH]; intros prev piece skip; [cbn; lia|].
  cbn [split_loop]. rewrite count_stops_cons.
  destruct skip as [|k]; [|specialize (IH (Some c) [] k); lia].
  destruct (rx_match re_sentence_end prev (c :: rest)) as [n|] eqn:E.
  - apply sentence_end_match_inv in E.
    destruct E as (c0 & run & d & run2 & rest' & Heq & Hc & _ & ->).
    injection Heq as <- _. rewrite Hc. cbn [length Nat.add].
    specialize (IH (Some c) [] (length run + S (length run2))%nat). lia.
  - specialize (IH (Some c) (c :: piece) 0%nat). lia.
Qed.

Lemma sentenceCount_bound text :
  (sentenceCount text <= S (count_stops text))%nat.
Proof.
  rewrite sentenceCount_eq.
  set (T := trim (str_replace_all re_spaces (js " "%string) text)).
  assert (HT : (count_stops T <= count_stops text)%nat).
  { unfold T. etransitivity; [apply count_stops_trim|].
    apply count_stops_replace. }
  etransitivity; [apply filter_length_le|].
  destruct T as [|c T'] eqn:ET.
  - cbn. lia.
  - cbn [str_split].
    pose proof (split_loop_length (c :: T') None [] 0%nat). lia.
Qed.

(** X15: a text counts at most one sentence more than it has sentence
    ending characters [.], [!] and [?]. *)
Theorem sentenceCount_le_stops text :
  (sentenceCount text <= S (count_stops text))%nat.
Proof. apply sentenceCount_bound. Qed.

(** X16: the submit button is enabled only when nothing is being submitted
    and the text holds at least two sentence ending characters. *)
Theorem submit_enabled_needs_stops submitting text :
  submit_disabled submitting text = false ->
  submitting = false /\ (2 <= count_stops text)%nat.
Proof.
  unfold submit_disabled, minSentences. intros H.
  apply orb_false_elim in H. destruct H as [Hs Hc].
  split; [exact Hs|]. apply Nat.ltb_ge in Hc.
  pose proof (sentenceCount_bound text). lia.
Qed.

(** ** The demo evaluator finds the first occurrence *)

Lemma rx_search_complete re pre : forall prev post i n,
  rx_match re (prev_after prev pre) post = Some n ->
  exists index m,
    rx_search re prev (pre ++ post) i = Some (index, m)
    /\ (index <= i + length pre)%nat.
Proof.
  induction pre as [|c pre IH]; intros prev post i n Hm.
  - cbn [app]. unfold prev_after in Hm. cbn [rev] in Hm.
    destruct post as [|d post]; cbn [rx_search]; rewrite Hm;
      exists i, n; split; trivial; cbn; lia.
  - cbn [app rx_search].
    destruct (rx_match re prev (c :: pre ++ post)) as [m|].
    + exists i, m. split; [reflexivity | lia].
    + rewrite prev_after_cons in Hm.
      destruct (IH (Some c) post (S i) n Hm) as (index & m & -> & Hle).
      exists index, m. split; [reflexivity | cbn [length]; lia].
Qed.

Lemma is_word_letter l c :
  (97 <=? l)%N && (l <=? 122)%N = true ->
  (c = l \/ c = l - 32)%N -> atom_test (Letter l) c = true /\ is_word c = true.
Proof.
  intros Hl Hc.
  assert (H : atom_test (Letter l) c = true).
  { cbn [atom_test]. destruct Hc as [-> | ->]; rewrite N.eqb_refl;
      [reflexivity | apply orb_true_r]. }
  split; [exact H | now apply (letter_is_word l)].
Qed.

Lemma match_teh_complete prev c1 c2 c3 post :
  (c1 = 116 \/ c1 = 84)%N -> (c2 = 101 \/ c2 = 69)%N -> (c3 = 104 \/ c3 = 72)%N ->
  is_word_opt prev = false -> is_word_opt (hd_error post) = false ->
  rx_match re_teh prev (c1 :: c2 :: c3 :: post) = Some 3%nat.
Proof.
  intros H1 H2 H3 Hp Hn.
  destruct (is_word_letter 116 c1 eq_refl H1) as [T1 W1].
  destruct (is_word_letter 101 c2 eq_refl H2) as [T2 _].
  destruct (is_word_letter 104 c3 eq_refl H3) as [T3 W3].
  unfold re_teh. cbn [rx_match hd_error is_word_opt].
  now rewrite Hp, W1, T1, T2, T3, W3, Hn.
Qed.

(** A greedy repetition stops where its atom does. *)
Lemma rx_match_plus_run a re run : forall prev c rest k,
  forallb (atom_test a) (c :: run) = true ->
  match rest with
  | d :: _ => atom_test a d = false
  | [] => True
  end ->
  rx_match re (Some (last run c)) rest = Some k ->
  rx_match (Plus a :: re) prev (c :: run ++ rest) = Some (S (length run) + k)%nat.
Proof.
  induction run as [|c' run IH]; intros prev c rest k Hall Hstop Hk;
    rewrite rx_match_plus; cbn [forallb] in Hall;
    apply andb_prop in Hall; destruct Hall as [-> Hall].
  - cbn [app last] in *. rewrite rx_match_plus.
    destruct rest as [|d rest].
    + now rewrite Hk.
    + rewrite Hstop. now rewrite Hk.
  - cbn [app]. rewrite (IH (Some c) c' rest k); trivial.
    now rewrite last_cons_default in Hk.
Qed.

Lemma match_i_was_complete prev ci sp ws cw ca cs post :
  (ci = 105 \/ ci = 73)%N -> forallb is_space (sp :: ws) = true ->
  (cw = 119 \/ cw = 87)%N -> (ca = 97 \/ ca = 65)%N -> (cs = 115 \/ cs = 83)%N ->
  is_word_opt prev = false -> is_word_opt (hd_error post) = false ->
  rx_match re_i_was prev (ci :: (sp :: ws) ++ cw :: ca :: cs :: post)
  = Some (length (sp :: ws) + 4)%nat.
Proof.
  intros Hi Hsp Hw Ha Hs Hp Hn.
  destruct (is_word_letter 105 ci eq_refl Hi) as [Ti Wi].
  destruct (is_word_letter 119 cw eq_refl Hw) as [Tw _].
  destruct (is_word_letter 97 ca eq_refl Ha) as [Ta _].
  destruct (is_word_letter 115 cs eq_refl Hs) as [Ts Ws].
  assert (Hnsp : is_space cw = false) by (destruct Hw as [-> | ->]; reflexivity).
  unfold re_i_was. cbn [rx_match hd_error is_word_opt].
  rewrite Hp, Wi. cbn [xorb]. rewrite Ti.
  change ((fix more (prev0 : option code_unit) (rest0 : jsstring) {struct rest0} :
             option nat := _) (Some ci) ((sp :: ws) ++ cw :: ca :: cs :: post))
    with (rx_match (Plus Space :: [One (Letter 119%N); One (Letter 97%N);
                                   One (Letter 115%N); Boundary])
                   (Some ci) (sp :: ws ++ cw :: ca :: cs :: post)).
  rewrite (rx_match_plus_run Space _ ws (Some ci) sp (cw :: ca :: cs :: post) 3%nat);
    trivial.
  - cbn [option_map length]. f_equal. lia.
  - cbn [rx_match hd_error is_word_opt]. now rewrite Tw, Ta, Ts, Ws, Hn.
Qed.

Lemma mock_issue_found re text pre post n :
  text = (pre ++ post)%list ->
  rx_match re (prev_after None pre) post = Some n ->
  exists index m, str_match re text = Some (index, m) /\ (index <= length pre)%nat.
Proof.
  intros -> Hm. unfold str_match.
  destruct (rx_search_complete re pre None post 0%nat n Hm) as (index & m & H & Hle).
  now exists index, m.
Qed.

(** X17: when the text holds a whole word [teh] (in any letter case), the
    demo evaluator returns a spell issue that starts at or before it. *)
Theorem mockEvaluate_finds_teh text pre c1 c2 c3 post :
  text = (pre ++ [c1; c2; c3] ++ post)%list ->
  (c1 = 116 \/ c1 = 84)%N -> (c2 = 101 \/ c2 = 69)%N -> (c3 = 104 \/ c3 = 72)%N ->
  is_word_opt (prev_after None pre) = false ->
  is_word_opt (hd_error post) = false ->
  exists i, In i (issues (mockEvaluate text)) /\ type i = spell
            /\ start i <= Z.of_nat (length pre).
Proof.
  intros Ht H1 H2 H3 Hp Hn.
  destruct (mock_issue_found re_teh text pre ([c1; c2; c3] ++ post) 3%nat Ht)
    as (index & m & Hm & Hle).
  { now apply match_teh_complete. }
  unfold mockEvaluate. cbn [issues]. rewrite mock_clarity_branch.
  unfold rx_test. rewrite Hm.
  eexists. split; [apply in_or_app; right; now left|].
  cbn [type start]. split; [reflexivity | unfold code_unit in *; lia].
Qed.

(** X18: when the text holds a whole word [i], white space and a whole word
    [was] (in any letter case), the demo evaluator returns a grammar issue
    that starts at or before it. *)
Theorem mockEvaluate_finds_i_was text pre ci sp ws cw ca cs post :
  text = (pre ++ (ci :: (sp :: ws) ++ [cw; ca; cs]) ++ post)%list ->
  (ci = 105 \/ ci = 73)%N -> forallb is_space (sp :: ws) = true ->
  (cw = 119 \/ cw = 87)%N -> (ca = 97 \/ ca = 65)%N -> (cs = 115 \/ cs = 83)%N ->
  is_word_opt (prev_after None pre) = false ->
  is_word_opt (hd_error post) = false ->
  exists i, In i (issues (mockEvaluate text)) /\ type i = grammar
            /\ start i <= Z.of_nat (length pre).
Proof.
  intros Ht Hi Hsp Hw Ha Hs Hp Hn.
  destruct (mock_issue_found re_i_was text pre
              (ci :: (sp :: ws) ++ cw :: ca :: cs :: post)
              (length (sp :: ws) + 4)%nat) as (index & m & Hm & Hle).
  { rewrite Ht. f_equal. cbn [app]. now rewrite <- app_assoc. }
  { now apply match_i_was_complete. }
  unfold mockEvaluate. cbn [issues]. rewrite mock_clarity_branch.
  unfold rx_test. rewrite Hm.
  destruct (str_match re_teh text) as [[i2 n2]|];
    (eexists; split; [cbn [app]; left; reflexivity|]);
    cbn [type start]; (split; [reflexivity | unfold code_unit in *; lia]).
Qed.

(** ** The further properties at concrete inputs *)

Lemma buildSegments_remainder_plain_witness :
  let h := store_of [mkIssue spell 0 3 None] in
  let text := js "Teh cat was nice."%string in
  (forall r, In r [0%nat] -> start (h r) <= end_ (h r))
  /\ stack (sweep h text (sorted_markers h [0%nat])) = []
  /\ buildSegments h text [0%nat]
     = (segs (sweep h text (sorted_markers h [0%nat]))
        ++ (if cursor_after (sorted_markers h [0%nat]) <? str_length text
            then [mkSegment (slice_from text (cursor_after (sorted_markers h [0%nat])))
                            plain None]
            else []))%list.
Proof.
  intros h text.
  assert (Hr : forall r, In r [0%nat] -> start (h r) <= end_ (h r)).
  { intros r [<-|[]]. vm_compute. discriminate. }
  split; [exact Hr|]. exact (buildSegments_remainder_plain h text [0%nat] Hr).
Defined.

Lemma governed_segment_inside_witness :
  let h := store_of [mkIssue spell 0 3 None] in
  let text := js "Teh cat was nice."%string in
  let s := mkSegment (js "Teh"%string) (kind spell) None in
  In s (buildSegments h text [0%nat])
  /\ exists pre post,
       sorted_markers h [0%nat] = (pre ++ post)%list
       /\ emitted_at h text pre post s
       /\ forall r, governing pre = Some r -> start (h r) <= end_ (h r) ->
            seg_type s = kind (type (h r))
            /\ forall i, cursor_after pre <= i < emission_end text post ->
                         start (h r) <= i < end_ (h r).
Proof.
  intros h text s.
  assert (Hs : In s (buildSegments h text [0%nat])) by (left; reflexivity).
  split; [exact Hs|]. exact (governed_segment_inside h text [0%nat] s Hs).
Defined.

Lemma plain_segment_uncovered_witness :
  let h := store_of [mkIssue spell 0 3 None] in
  let text := js "Teh cat was nice."%string in
  let s := mkSegment (js " cat was nice."%string) plain None in
  In s (buildSegments h text [0%nat])
  /\ exists pre post,
       sorted_markers h [0%nat] = (pre ++ post)%list
       /\ emitted_at h text pre post s
       /\ (governing pre = None ->
           seg_type s = plain
           /\ forall r i, In r [0%nat] ->
                cursor_after pre <= i < emission_end text post ->
                ~ (start (h r) <= i < end_ (h r))).
Proof.
  intros h text s.
  assert (Hs : In s (buildSegments h text [0%nat])) by (right; left; reflexivity).
  split; [exact Hs|]. exact (plain_segment_uncovered h text [0%nat] s Hs).
Defined.

Lemma buildSegments_single_witness :
  let h := store_of [mkIssue grammar 4 7 None] in
  let text := js "The cat was nice."%string in
  0 <= start (h 0%nat) < end_ (h 0%nat)
  /\ buildSegments h text [0%nat]
     = [mkSegment (slice text 0 4) plain None;
        mkSegment (slice text 4 7) (kind grammar) None;
        mkSegment (slice_from text 7) plain None].
Proof.
  intros h text.
  assert (Hr : 0 <= start (h 0%nat) < end_ (h 0%nat))
    by (vm_compute; split; [discriminate | reflexivity]).
  split; [exact Hr|]. exact (buildSegments_single h text 0%nat Hr).
Defined.

Lemma buildSegments_permutation_witness :
  let h := store_of [mkIssue grammar 0 10 None; mkIssue spell 5 15 None] in
  let text := js "The quick brown fox."%string in
  Permutation [0%nat; 1%nat] [1%nat; 0%nat]
  /\ (forall r1 r2, In r1 [0%nat; 1%nat] -> In r2 [0%nat; 1%nat] ->
        start (h r1) = start (h r2) -> r1 = r2)
  /\ buildSegments h text [1%nat; 0%nat] = buildSegments h text [0%nat; 1%nat].
Proof.
  intros h text.
  assert (HP : Permutation [0%nat; 1%nat] [1%nat; 0%nat]) by apply perm_swap.
  assert (Hu : forall r1 r2, In r1 [0%nat; 1%nat] -> In r2 [0%nat; 1%nat] ->
                 start (h r1) = start (h r2) -> r1 = r2).
  { intros r1 r2 [<-|[<-|[]]] [<-|[<-|[]]] E; trivial; vm_compute in E; discriminate. }
  split; [exact HP|]. split; [exact Hu|].
  exact (buildSegments_permutation h text _ _ HP Hu).
Defined.

Lemma mockEvaluate_spans_in_range_witness :
  let text := js "today i was sad. teh end."%string in
  let i := mkIssue grammar 6 11 (Some "Capitalize ‘I’."%string) in
  In i (issues (mockEvaluate text))
  /\ 0 <= start i < end_ i /\ end_ i <= str_length text.
Proof.
  intros text i.
  assert (Hi : In i (issues (mockEvaluate text))) by (left; reflexivity).
  split; [exact Hi|]. exact (mockEvaluate_spans_in_range text i Hi).
Defined.

Lemma mockEvaluate_spell_span_witness :
  let text := js "today i was sad. teh end."%string in
  let i := mkIssue spell 17 20 (Some "Spelling: ‘the’."%string) in
  In i (issues (mockEvaluate text)) /\ type i = spell
  /\ exists pre c1 c2 c3 post,
       text = (pre ++ [c1; c2; c3] ++ post)%list
       /\ start i = Z.of_nat (length pre) /\ end_ i = start i + 3
       /\ (c1 = 116 \/ c1 = 84)%N /\ (c2 = 101 \/ c2 = 69)%N
       /\ (c3 = 104 \/ c3 = 72)%N
       /\ is_word_opt (prev_after None pre) = false
       /\ is_word_opt (hd_error post) = false.
Proof.
  intros text i.
  assert (Hi : In i (issues (mockEvaluate text))) by (right; left; reflexivity).
  split; [exact Hi|]. split; [reflexivity|].
  exact (mockEvaluate_spell_span text i Hi eq_refl).
Defined.

Lemma mockEvaluate_grammar_span_witness :
  let text := js "today i was sad. teh end."%string in
  let i := mkIssue grammar 6 11 (Some "Capitalize ‘I’."%string) in
  In i (issues (mockEvaluate text)) /\ type i = grammar
  /\ exists pre ci ws cw ca cs post,
       text = (pre ++ (ci :: ws ++ [cw; ca; cs]) ++ post)%list
       /\ start i = Z.of_nat (length pre)
       /\ end_ i = start i + Z.of_nat (length ws) + 4
       /\ ws <> [] /\ forallb is_space ws = true
       /\ (ci = 105 \/ ci = 73)%N /\ (cw = 119 \/ cw = 87)%N
       /\ (ca = 97 \/ ca = 65)%N /\ (cs = 115 \/ cs = 83)%N
       /\ is_word_opt (prev_after None pre) = false
       /\ is_word_opt (hd_error post) = false.
Proof.
  intros text i.
  assert (Hi : In i (issues (mockEvaluate text))) by (left; reflexivity).
  split; [exact Hi|]. split; [reflexivity|].
  exact (mockEvaluate_grammar_span text i Hi eq_refl).
Defined.

Lemma demo_preview_witness :
  let text := js "today i was sad. teh end."%string in
  let r := mockEvaluate text in
  text <> []
  /\ exists l,
       OriginalPreview (store_of (issues r)) text (refs_of (issues r)) overview
       = Spans l
       /\ concat (map span_text l) = text
       /\ Forall (fun sp => span_text sp <> []) l
       /\ (length l <= 5)%nat
       /\ Forall (fun sp => span_class sp = segment_class plain
                            \/ span_class sp = segment_class (kind spell)
                            \/ span_class sp = segment_class (kind grammar)) l.
Proof.
  intros text r.
  assert (Ht : text <> []) by discriminate.
  split; [exact Ht|]. exact (demo_preview text overview Ht).
Defined.

Lemma sentenceCount_zero_iff_blank_witness :
  let text := js "   "%string in
  forallb is_space text = true /\ sentenceCount text = 0%nat.
Proof.
  intros text.
  assert (Hb : forallb is_space text = true) by reflexivity.
  split; [exact Hb|].
  exact (proj2 (sentenceCount_zero_iff_blank text) Hb).
Defined.

Lemma submit_enabled_needs_stops_witness :
  let text := js "I ran. I fell. I cried."%string in
  submit_disabled false text = false
  /\ false = false /\ (2 <= count_stops text)%nat.
Proof.
  intros text.
  assert (H : submit_disabled false text = false) by reflexivity.
  split; [exact H|]. exact (submit_enabled_needs_stops false text H).
Defined.

Lemma mockEvaluate_finds_teh_witness :
  let text := js "my teh cat"%string in
  text = (js "my "%string ++ [116; 101; 104]%N ++ js " cat"%string)%list
  /\ exists i, In i (issues (mockEvaluate text)) /\ type i = spell
               /\ start i <= Z.of_nat (length (js "my "%string)).
Proof.
  intros text.
  assert (Ht : text = (js "my "%string ++ [116; 101; 104]%N ++ js " cat"%string)%list)
    by reflexivity.
  split; [exact Ht|].
  apply (mockEvaluate_finds_teh text _ _ _ _ _ Ht); auto.
Defined.

Lemma mockEvaluate_finds_i_was_witness :
  let text := js "so i was"%string in
  text = (js "so "%string ++ (105 :: [32] ++ [119; 97; 115]) ++ [])%list%N
  /\ exists i, In i (issues (mockEvaluate text)) /\ type i = grammar
               /\ start i <= Z.of_nat (length (js "so "%string)).
Proof.
  intros text.
  assert (Ht : text = (js "so "%string ++ (105 :: [32] ++ [119; 97; 115]) ++ [])%list%N)
    by reflexivity.
  split; [exact Ht|].
  apply (mockEvaluate_finds_i_was text _ _ _ _ _ _ _ _ Ht); auto.
Defined.
